(** * Snake – Deluxe: the simulation engine of [Sake_game.py]

    A shallow embedding of the game logic of [src/Sake_game.py] (class
    [Game], the obstacle and power-up helpers and the fixed-step loop of
    [main]) and the properties of the specification that concern it.

    Modelling conventions.
    - Python integers are [Z]; [//] is [Z.div] (both round towards minus
      infinity, and every divisor in the program is positive).
    - The float literals 1.5, 1.4, 0.6 and 1.0 of [power_multiplier] and
      [current_fps] are exact rationals ([Q]); [int(...)] is truncation
      towards zero.
    - The scheduler's floats ([dt], [step_timer], [target_step]) are IEEE 754
      binary64 numbers: the type [spec_float] of the Standard Library with
      its operations at precision 53 and maximal exponent 1024, which round
      to nearest, ties to even, as Python's [float] does.
    - [pygame.time.get_ticks()] is the argument [now] (milliseconds).
    - The [random] module is a supply of raw draws ([list Z]) threaded
      through the computations that use it; a rejection loop ([while True])
      that exhausts the supply is reported as [Starved].
    - Drawing, sound and the particle list are presentation only and are
      left out; so are the attributes [start_time], [tick_accum] and [alive],
      which are written once and never read. *)

From Stdlib Require Import ZArith QArith Qround Bool List Lia Lqa.
From Stdlib Require Import SpecFloat.
Import ListNotations.

Local Open Scope Z_scope.

(** ** Configuration constants *)

Definition WIDTH : Z := 600.
Definition HEIGHT : Z := 400.
Definition GRID : Z := 20.
Definition FPS_BASE : Z := 12.
Definition MAX_FPS : Z := 30.

Definition LIVES_START : Z := 3.
Definition LEVEL_UP_EVERY : Z := 5.

(** [POWERUP_CHANCE = 0.08], as a percentage. *)
Definition POWERUP_CHANCE_PCT : Z := 8.
Definition POWERUP_DURATION : Z := 4500.
Definition POWERUP_TTL : Z := 9000.

Definition SPECIAL_FOOD_EVERY : Z := 10.
Definition SPECIAL_FOOD_TTL : Z := 6000.
Definition SPECIAL_FOOD_VALUE : Z := 5.

Definition NUM_STATIC_OBSTACLES : nat := 6.
Definition NUM_MOVING_OBSTACLES : nat := 2.

(** ** Cells, rectangles, directions *)

Definition Cell : Type := Z * Z.
Definition Dir : Type := Z * Z.

Definition cell_eqb (a b : Cell) : bool :=
  (fst a =? fst b) && (snd a =? snd b).

(** [pos in cells] for lists of coordinate pairs. *)
Definition cell_mem (c : Cell) (l : list Cell) : bool := existsb (cell_eqb c) l.

Record Rect : Type := mkRect { rx : Z; ry : Z; rw : Z; rh : Z }.

(** [pygame.Rect.colliderect]: the two rectangles share interior points
    (all rectangles of the program have positive width and height). *)
Definition colliderect (a b : Rect) : bool :=
  (rx a <? rx b + rw b) && (rx b <? rx a + rw a) &&
  (ry a <? ry b + rh b) && (ry b <? ry a + rh a).

(** [pygame.Rect(pos[0], pos[1], GRID, GRID)] *)
Definition cell_rect (c : Cell) : Rect := mkRect (fst c) (snd c) GRID GRID.

Definition UP : Dir := (0, - GRID).
Definition DOWN : Dir := (0, GRID).
Definition LEFT : Dir := (- GRID, 0).
Definition RIGHT : Dir := (GRID, 0).

Definition opposite (d : Dir) : Dir := (- fst d, - snd d).

(** ** The random supply and the computation monad *)

Inductive Result (A : Type) : Type :=
| Done (a : A) (rest : list Z)   (* finished, with the unused draws *)
| Starved                        (* a rejection loop used up the supply *)
| Raised.                        (* an IndexError: the snake list is empty *)

Arguments Done {A} a rest.
Arguments Starved {A}.
Arguments Raised {A}.

Definition M (A : Type) : Type := list Z -> Result A.

Definition ret {A} (a : A) : M A := fun ds => Done a ds.

Definition bind {A B} (m : M A) (k : A -> M B) : M B :=
  fun ds =>
    match m ds with
    | Done a rest => k a rest
    | Starved => Starved
    | Raised => Raised
    end.

Definition draw : M Z :=
  fun ds => match ds with [] => Starved | d :: rest => Done d rest end.

(** A partial method: [None] is the IndexError of Python. *)
Definition liftO {A} (o : option A) : M A :=
  fun ds => match o with Some a => Done a ds | None => Raised end.

Declare Scope game_scope.
Delimit Scope game_scope with game.
Notation "x <- m ;; k" := (bind m (fun x => k))
  (at level 61, m at next level, right associativity) : game_scope.
Notation "' p <- m ;; k" := (bind m (fun x => match x with p => k end))
  (at level 61, p pattern, m at next level, right associativity) : game_scope.
Local Open Scope game_scope.

(** [random.randrange(a, b)] read off a raw draw. *)
Definition randrange (a b r : Z) : Z := a + r mod (b - a).

(** [random.choice([x, y])] read off a raw draw. *)
Definition choice2 {A} (x y : A) (r : Z) : A := if r mod 2 =? 0 then x else y.

(** [random.random() < p / 100] read off a raw draw. *)
Definition chance (pct r : Z) : bool := r mod 100 <? pct.

(** ** Utilities *)

(** [grid_pos()]: a random grid-aligned position, from two draws. *)
Definition grid_pos (r1 r2 : Z) : Cell :=
  (randrange 0 (WIDTH / GRID) r1 * GRID, randrange 0 (HEIGHT / GRID) r2 * GRID).

(** ** Power-ups *)

Inductive Kind : Type := Speed | Slow | Bonus.

(** [random.choice(POWER_TYPES)] *)
Definition choice_kind (r : Z) : Kind :=
  match r mod 3 with 0 => Speed | 1 => Slow | _ => Bonus end.

Record PowerUp : Type := mkPowerUp { kind : Kind; pos : Cell; spawn_time : Z }.

Definition PowerUp_alive (now : Z) (p : PowerUp) : bool :=
  now - spawn_time p <? POWERUP_TTL.

Definition PowerUp_rect (p : PowerUp) : Rect := cell_rect (pos p).

(** ** Obstacles *)

Record MovingObstacle : Type := mkMoving { rect : Rect; dx : Z }.

Definition MovingObstacle_update (m : MovingObstacle) : MovingObstacle :=
  let r := rect m in
  let r' := mkRect (rx r + dx m) (ry r) (rw r) (rh r) in
  if (WIDTH <=? rx r' + rw r') || (rx r' <=? 0)
  then mkMoving r' (dx m * -1)
  else mkMoving r' (dx m).

(** One turn of the [for] loop over static obstacles: the [while True]
    rejection loop, two draws per attempt and two more for the size. *)
Fixpoint static_obstacle (taken : list Cell) (ds : list Z)
  : Result (Rect * list Cell) :=
  match ds with
  | r1 :: r2 :: ds' =>
      let x := randrange 1 (WIDTH / GRID - 1) r1 * GRID in
      let y := randrange 2 (HEIGHT / GRID - 1) r2 * GRID in
      if negb (cell_mem (x, y) taken) &&
         negb ((WIDTH / 2 - 3 * GRID <=? x) && (x <=? WIDTH / 2 + 3 * GRID))
      then
        match ds' with
        | r3 :: r4 :: ds'' =>
            let w := choice2 (GRID * 2) (GRID * 3) r3 in
            let h := choice2 GRID (GRID * 2) r4 in
            Done (mkRect x y w h, (x, y) :: taken) ds''
        | _ => Starved
        end
      else static_obstacle taken ds'
  | _ => Starved
  end.

Fixpoint static_obstacles_loop (n : nat) (obs : list Rect) (taken : list Cell)
  : M (list Rect) :=
  match n with
  | O => ret obs
  | S n' =>
      ' (o, taken') <- static_obstacle taken ;;
      static_obstacles_loop n' (obs ++ [o]) taken'
  end.

Fixpoint moving_obstacles_loop (n : nat) (mobs : list MovingObstacle)
  : M (list MovingObstacle) :=
  match n with
  | O => ret mobs
  | S n' =>
      r1 <- draw ;; r2 <- draw ;; r3 <- draw ;;
      let y := randrange 3 (HEIGHT / GRID - 1) r1 * GRID in
      let w := GRID * choice2 2 3 r2 in
      let d := choice2 2 3 r3 in
      moving_obstacles_loop n' (mobs ++ [mkMoving (mkRect GRID y w GRID) d])
  end.

Definition make_obstacles : M (list Rect * list MovingObstacle) :=
  obs <- static_obstacles_loop NUM_STATIC_OBSTACLES [] [] ;;
  mobs <- moving_obstacles_loop NUM_MOVING_OBSTACLES [] ;;
  ret (obs, mobs).

(** ** Game state *)

Record Game : Type := mkGame {
  score : Z;
  high : Z;
  level : Z;
  lives : Z;
  snake : list Cell;                    (* tail first, head last *)
  dir : Dir;
  next_dir : Dir;
  food : Cell;
  special_food : option Cell;
  special_spawned_at : Z;
  powerups : list PowerUp;
  active_power : option (Kind * Z);     (* (kind, end_time) *)
  static_obstacles : list Rect;
  moving_obstacles : list MovingObstacle;
  last_special_check : Z;
  paused : bool
}.

Definition set_score (v : Z) (g : Game) : Game :=
  mkGame v (high g) (level g) (lives g) (snake g) (dir g) (next_dir g) (food g)
    (special_food g) (special_spawned_at g) (powerups g) (active_power g)
    (static_obstacles g) (moving_obstacles g) (last_special_check g) (paused g).
Definition set_high (v : Z) (g : Game) : Game :=
  mkGame (score g) v (level g) (lives g) (snake g) (dir g) (next_dir g) (food g)
    (special_food g) (special_spawned_at g) (powerups g) (active_power g)
    (static_obstacles g) (moving_obstacles g) (last_special_check g) (paused g).
Definition set_level (v : Z) (g : Game) : Game :=
  mkGame (score g) (high g) v (lives g) (snake g) (dir g) (next_dir g) (food g)
    (special_food g) (special_spawned_at g) (powerups g) (active_power g)
    (static_obstacles g) (moving_obstacles g) (last_special_check g) (paused g).
Definition set_lives (v : Z) (g : Game) : Game :=
  mkGame (score g) (high g) (level g) v (snake g) (dir g) (next_dir g) (food g)
    (special_food g) (special_spawned_at g) (powerups g) (active_power g)
    (static_obstacles g) (moving_obstacles g) (last_special_check g) (paused g).
Definition set_snake (v : list Cell) (g : Game) : Game :=
  mkGame (score g) (high g) (level g) (lives g) v (dir g) (next_dir g) (food g)
    (special_food g) (special_spawned_at g) (powerups g) (active_power g)
    (static_obstacles g) (moving_obstacles g) (last_special_check g) (paused g).
Definition set_dir (v : Dir) (g : Game) : Game :=
  mkGame (score g) (high g) (level g) (lives g) (snake g) v (next_dir g) (food g)
    (special_food g) (special_spawned_at g) (powerups g) (active_power g)
    (static_obstacles g) (moving_obstacles g) (last_special_check g) (paused g).
Definition set_next_dir (v : Dir) (g : Game) : Game :=
  mkGame (score g) (high g) (level g) (lives g) (snake g) (dir g) v (food g)
    (special_food g) (special_spawned_at g) (powerups g) (active_power g)
    (static_obstacles g) (moving_obstacles g) (last_special_check g) (paused g).
Definition set_food (v : Cell) (g : Game) : Game :=
  mkGame (score g) (high g) (level g) (lives g) (snake g) (dir g) (next_dir g) v
    (special_food g) (special_spawned_at g) (powerups g) (active_power g)
    (static_obstacles g) (moving_obstacles g) (last_special_check g) (paused g).
Definition set_special_food (v : option Cell) (g : Game) : Game :=
  mkGame (score g) (high g) (level g) (lives g) (snake g) (dir g) (next_dir g) (food g)
    v (special_spawned_at g) (powerups g) (active_power g)
    (static_obstacles g) (moving_obstacles g) (last_special_check g) (paused g).
Definition set_special_spawned_at (v : Z) (g : Game) : Game :=
  mkGame (score g) (high g) (level g) (lives g) (snake g) (dir g) (next_dir g) (food g)
    (special_food g) v (powerups g) (active_power g)
    (static_obstacles g) (moving_obstacles g) (last_special_check g) (paused g).
Definition set_powerups (v : list PowerUp) (g : Game) : Game :=
  mkGame (score g) (high g) (level g) (lives g) (snake g) (dir g) (next_dir g) (food g)
    (special_food g) (special_spawned_at g) v (active_power g)
    (static_obstacles g) (moving_obstacles g) (last_special_check g) (paused g).
Definition set_active_power (v : option (Kind * Z)) (g : Game) : Game :=
  mkGame (score g) (high g) (level g) (lives g) (snake g) (dir g) (next_dir g) (food g)
    (special_food g) (special_spawned_at g) (powerups g) v
    (static_obstacles g) (moving_obstacles g) (last_special_check g) (paused g).
Definition set_moving_obstacles (v : list MovingObstacle) (g : Game) : Game :=
  mkGame (score g) (high g) (level g) (lives g) (snake g) (dir g) (next_dir g) (food g)
    (special_food g) (special_spawned_at g) (powerups g) (active_power g)
    (static_obstacles g) v (last_special_check g) (paused g).
Definition set_last_special_check (v : Z) (g : Game) : Game :=
  mkGame (score g) (high g) (level g) (lives g) (snake g) (dir g) (next_dir g) (food g)
    (special_food g) (special_spawned_at g) (powerups g) (active_power g)
    (static_obstacles g) (moving_obstacles g) v (paused g).
Definition set_paused (v : bool) (g : Game) : Game :=
  mkGame (score g) (high g) (level g) (lives g) (snake g) (dir g) (next_dir g) (food g)
    (special_food g) (special_spawned_at g) (powerups g) (active_power g)
    (static_obstacles g) (moving_obstacles g) (last_special_check g) v.

(** The two spawn segments and the spawn direction, as written in
    [reset_all] and again in [reset_after_hit]. *)
Definition spawn_snake : list Cell :=
  [(WIDTH / 2, HEIGHT / 2 + GRID); (WIDTH / 2, HEIGHT / 2)].
Definition spawn_dir : Dir := (0, - GRID).

(** [self.snake[-1]]; [None] on the empty list, where Python raises. *)
Definition head_of (l : list Cell) : option Cell :=
  match l with
  | [] => None
  | _ :: _ => Some (last l (0, 0))
  end.

(** *** Food spawning

    [spawn_food] reads three attributes of the object: [snake], and the two
    obstacle lists through [hasattr] / [getattr(..., [])].  While [reset_all]
    runs for a new object these two attributes do not exist yet, which is
    [None] here. *)
Definition spawn_ok (sn : list Cell) (so : option (list Rect))
    (mo : option (list MovingObstacle)) (p : Cell) : bool :=
  let bad :=
    match so with
    | Some obs => existsb (fun o => colliderect o (cell_rect p)) obs
    | None => false
    end in
  let bad :=
    bad || existsb (fun m => colliderect (rect m) (cell_rect p))
             (match mo with Some l => l | None => [] end) in
  negb (cell_mem p sn) && negb bad && (GRID * 2 <? snd p).

Fixpoint spawn_food (sn : list Cell) (so : option (list Rect))
    (mo : option (list MovingObstacle)) (ds : list Z) : Result Cell :=
  match ds with
  | r1 :: r2 :: ds' =>
      let p := grid_pos r1 r2 in
      if spawn_ok sn so mo p then Done p ds' else spawn_food sn so mo ds'
  | _ => Starved
  end.

(** [self.spawn_food()] on a fully constructed game. *)
Definition Game_spawn_food (g : Game) : M Cell :=
  spawn_food (snake g) (Some (static_obstacles g)) (Some (moving_obstacles g)).

Definition reset_all (now : Z) : M Game :=
  f <- spawn_food spawn_snake None None ;;
  ' (obs, mobs) <- make_obstacles ;;
  ret {| score := 0; high := 0; level := 1; lives := LIVES_START;
         snake := spawn_snake; dir := spawn_dir; next_dir := spawn_dir;
         food := f; special_food := None; special_spawned_at := 0;
         powerups := []; active_power := None;
         static_obstacles := obs; moving_obstacles := mobs;
         last_special_check := now; paused := false |}.

(** [Game()] *)
Definition Game_init (now : Z) : M Game := reset_all now.

Definition reset_after_hit (g : Game) : Game :=
  let g := set_lives (lives g - 1) g in
  let g := set_snake spawn_snake g in
  let g := set_dir spawn_dir g in
  let g := set_next_dir (dir g) g in
  set_active_power None g.

Definition spawn_special_food (now : Z) (g : Game) : M Game :=
  p <- Game_spawn_food g ;;
  ret (set_special_spawned_at now (set_special_food (Some p) g)).

Definition maybe_spawn_powerup (now : Z) (g : Game) : M Game :=
  r <- draw ;;
  if chance POWERUP_CHANCE_PCT r then
    rk <- draw ;;
    p <- Game_spawn_food g ;;
    ret (set_powerups (powerups g ++ [mkPowerUp (choice_kind rk) p now]) g)
  else ret g.

(** *** Active effect and speed *)

Definition apply_power (now : Z) (k : Kind) (g : Game) : Game :=
  let end_ := now + POWERUP_DURATION in
  let g := match k with Bonus => set_score (score g + 3) g | _ => g end in
  set_active_power (Some (k, end_)) g.

Definition kind_multiplier (k : Kind) : Q :=
  match k with Speed => 14 # 10 | Slow => 6 # 10 | Bonus => 1 end.

Definition power_multiplier (now : Z) (g : Game) : Q * Game :=
  match active_power g with
  | None => (1%Q, g)
  | Some (k, end_) =>
      if end_ <? now then (1%Q, set_active_power None g)
      else (kind_multiplier k, g)
  end.

(** [int(x)] on a float: truncation towards zero. *)
Definition py_int (q : Q) : Z := Z.quot (Qnum q) (Zpos (Qden q)).

Definition fps_base (lvl : Z) : Q :=
  (inject_Z FPS_BASE + inject_Z (lvl - 1) * (3 # 2))%Q.

Definition current_fps (now : Z) (g : Game) : Z * Game :=
  let base := fps_base (level g) in
  let '(m, g') := power_multiplier now g in
  (Z.max 6 (Z.min MAX_FPS (py_int (base * m)%Q)), g').

Definition update_level (g : Game) : Game :=
  set_level (1 + score g / LEVEL_UP_EVERY) g.

(** *** Input *)

Inductive Key : Type :=
| K_w | K_UP | K_s | K_DOWN | K_a | K_LEFT | K_d | K_RIGHT
| K_p | K_r | K_q | K_ESCAPE | K_other.

Inductive Event : Type :=
| KEYDOWN (key : Key)
| QUIT
| OtherEvent.

Definition handle_input (e : Event) (g : Game) : Game :=
  match e with
  | KEYDOWN k =>
      if (match k with K_w | K_UP => true | _ => false end) && (snd (dir g) =? 0)
      then set_next_dir (0, - GRID) g
      else if (match k with K_s | K_DOWN => true | _ => false end) && (snd (dir g) =? 0)
      then set_next_dir (0, GRID) g
      else if (match k with K_a | K_LEFT => true | _ => false end) && (fst (dir g) =? 0)
      then set_next_dir (- GRID, 0) g
      else if (match k with K_d | K_RIGHT => true | _ => false end) && (fst (dir g) =? 0)
      then set_next_dir (GRID, 0) g
      else match k with
           | K_p => set_paused (negb (paused g)) g
           | _ => g
           end
  | _ => g
  end.

(** *** Movement, growth, collision *)

Definition move_snake (g : Game) : option Game :=
  let g := set_dir (next_dir g) g in
  match head_of (snake g) with
  | None => None
  | Some (hx, hy) =>
      let new_head := (hx + fst (dir g), hy + snd (dir g)) in
      Some (set_snake (snake g ++ [new_head]) g)
  end.

Definition trim_tail (grew : bool) (g : Game) : option Game :=
  if negb grew then
    match snake g with
    | [] => None
    | _ :: rest => Some (set_snake rest g)
    end
  else Some g.

Definition hits_wall (h : Cell) : bool :=
  (fst h <? 0) || (WIDTH <=? fst h) || (snd h <? GRID * 2) || (HEIGHT <=? snd h).

Definition hits_static (obs : list Rect) (h : Cell) : bool :=
  existsb (fun o => colliderect (cell_rect h) o) obs.

Definition hits_moving (mobs : list MovingObstacle) (h : Cell) : bool :=
  existsb (fun m => colliderect (cell_rect h) (rect m)) mobs.

Definition check_collisions (g : Game) : option bool :=
  match head_of (snake g) with
  | None => None
  | Some h =>
      Some (if hits_wall h then true
            else if cell_mem h (removelast (snake g)) then true
            else if hits_static (static_obstacles g) h then true
            else hits_moving (moving_obstacles g) h)
  end.

Definition eat_food (now : Z) (g : Game) : M (bool * Game) :=
  h <- liftO (head_of (snake g)) ;;
  let ate := (fst h =? fst (food g)) && (snd h =? snd (food g)) in
  if ate then
    let g := set_score (score g + 1) g in
    let g := update_level g in
    f <- Game_spawn_food g ;;
    let g := set_food f g in
    g <- maybe_spawn_powerup now g ;;
    ret (ate, g)
  else ret (ate, g).

Definition eat_special_food (g : Game) : option (bool * Game) :=
  match special_food g with
  | None => Some (false, g)
  | Some sf =>
      match head_of (snake g) with
      | None => None
      | Some h =>
          if (fst h =? fst sf) && (snd h =? snd sf) then
            let g := set_score (score g + SPECIAL_FOOD_VALUE) g in
            let g := update_level g in
            Some (true, set_special_food None g)
          else Some (false, g)
      end
  end.

(** The first power-up whose rectangle meets [hr], and the list without it
    ([self.powerups.pop(i)]). *)
Fixpoint pop_first_hit (hr : Rect) (l : list PowerUp)
  : option (PowerUp * list PowerUp) :=
  match l with
  | [] => None
  | p :: rest =>
      if colliderect hr (PowerUp_rect p) then Some (p, rest)
      else match pop_first_hit hr rest with
           | Some (q, rest') => Some (q, p :: rest')
           | None => None
           end
  end.

Definition pickup_powerup (now : Z) (g : Game) : option (bool * Game) :=
  match head_of (snake g) with
  | None => None
  | Some h =>
      match pop_first_hit (cell_rect h) (powerups g) with
      | Some (p, rest) =>
          let g := apply_power now (kind p) g in
          Some (true, set_powerups rest g)
      | None => Some (false, g)
      end
  end.

Definition is_some {A} (o : option A) : bool :=
  match o with Some _ => true | None => false end.

Definition update (now : Z) (g : Game) : M Game :=
  let g := set_moving_obstacles (map MovingObstacle_update (moving_obstacles g)) g in
  g <- (if negb (is_some (special_food g)) &&
           (SPECIAL_FOOD_EVERY * 1000 <? now - last_special_check g)
        then
          let g := set_last_special_check now g in
          r <- draw ;;
          if chance 50 r then spawn_special_food now g else ret g
        else ret g) ;;
  let g := if is_some (special_food g) &&
              (SPECIAL_FOOD_TTL <? now - special_spawned_at g)
           then set_special_food None g else g in
  ret (set_powerups (filter (PowerUp_alive now) (powerups g)) g).

(** ** The fixed-step loop of [main] *)

(** What the player does on the game-over screen: [R] restarts, [Q] or
    [ESCAPE] leaves the main loop, closing the window raises [SystemExit]. *)
Inductive Choice : Type := PressR | PressQ | CloseWindow.

Inductive Outcome : Type :=
| Continue (g : Game)               (* the loop goes on with [g] *)
| Restarted (over fresh : Game)     (* game over, then [game = Game()] *)
| Stopped (over : Game)             (* game over, [running = False; break] *)
| Exited (over : Game).             (* game over, [SystemExit] *)

(** A simulation step together with what its calls returned: the direction
    in force on entry, the direction [move_snake] committed, the results of
    [eat_food], [eat_special_food] and [check_collisions]. *)
Record StepReport : Type := mkReport {
  heading : Dir;
  committed : Dir;
  ate : bool;
  ate_special : bool;
  collided : bool;
  outcome : Outcome
}.

(** Lines 527-536 of [main]: move, eat, pick up. *)
Definition advance (now : Z) (g : Game) : M (bool * bool * Game) :=
  g <- liftO (move_snake g) ;;
  ' (a, g) <- eat_food now g ;;
  ' (s, g) <- liftO (eat_special_food g) ;;
  ' (_, g) <- liftO (pickup_powerup now g) ;;
  ret (a, s, g).

(** Lines 542-555 of [main]: the collision check and what follows it. *)
Definition resolve (now : Z) (c : Choice) (g : Game) : M (bool * Outcome) :=
  hit <- liftO (check_collisions g) ;;
  if hit then
    let g := reset_after_hit g in
    if lives g <=? 0 then
      let g := set_high (Z.max (high g) (score g)) g in
      match c with
      | PressR => fresh <- Game_init now ;; ret (hit, Restarted g fresh)
      | PressQ => ret (hit, Stopped g)
      | CloseWindow => ret (hit, Exited g)
      end
    else
      g <- update now g ;; ret (hit, Continue g)
  else
    g <- update now g ;; ret (hit, Continue g).

(** The body of the inner [while] loop of [main] (after the timer update). *)
Definition sim_step (now : Z) (c : Choice) (g : Game) : M StepReport :=
  ' (a, s, g1) <- advance now g ;;
  let grew := a || s in
  g2 <- liftO (trim_tail grew g1) ;;
  ' (hit, out) <- resolve now c g2 ;;
  ret (mkReport (dir g) (dir g1) a s hit out).

Record StepEnv : Type := mkEnv { env_now : Z; env_choice : Choice }.

Inductive Status : Type := Running | NotRunning | SystemExit.

(** ** Python floats in the scheduler *)

Definition float : Type := spec_float.
Definition prec : Z := 53.
Definition emax : Z := 1024.

(** [float(z)], the conversion an integer operand of a float operation
    undergoes (exact below 2^53). *)
Definition float_of_int (z : Z) : float := binary_normalize prec emax z 0 false.

Definition fadd : float -> float -> float := SFadd prec emax.
Definition fsub : float -> float -> float := SFsub prec emax.
Definition fdiv : float -> float -> float := SFdiv prec emax.

(** [x <= y] *)
Definition fle : float -> float -> bool := SFleb.

(** [0.0], and the [0] that a restart stores in [step_timer]. *)
Definition fzero : float := S754_zero false.

Record MainState : Type := mkMain {
  game : Game;
  step_timer : float;
  status : Status
}.

(** The state the loop leaves behind and the reports of the steps it ran. *)
Definition LoopEnd : Type := MainState * list StepReport.

Definition log_step (r : StepReport) (o : option LoopEnd) : option LoopEnd :=
  match o with
  | Some (st, log) => Some (st, r :: log)
  | None => None
  end.

(** [while step_timer >= target_step: ...], at most [fuel] turns ([None] when
    the loop would take more); [env k] is the clock and the player's choice
    at the [k]-th turn from [n] on. *)
Fixpoint fixed_steps (fuel : nat) (target : float) (env : nat -> StepEnv)
    (n : nat) (timer : float) (g : Game) : M (option LoopEnd) :=
  if fle target timer then
    match fuel with
    | O => ret None
    | S fuel' =>
        let timer := fsub timer target in
        r <- sim_step (env_now (env n)) (env_choice (env n)) g ;;
        match outcome r with
        | Continue g' =>
            e <- fixed_steps fuel' target env (S n) timer g' ;;
            ret (log_step r e)
        | Restarted _ fresh =>
            e <- fixed_steps fuel' target env (S n) fzero fresh ;;
            ret (log_step r e)
        | Stopped g' => ret (Some (mkMain g' timer NotRunning, [r]))
        | Exited g' => ret (Some (mkMain g' timer SystemExit, [r]))
        end
    end
  else ret (Some (mkMain g timer Running, [])).

Record FrameInput : Type := mkFrame {
  dt_ms : Z;                    (* [CLOCK.tick(60)] *)
  events : list Event;          (* [pygame.event.get()] *)
  frame_now : Z;                (* the clock when [current_fps] is asked *)
  frame_env : nat -> StepEnv
}.

Definition is_quit (e : Event) : bool :=
  match e with QUIT => true | _ => false end.

(** [1.0 / game.current_fps()] (the divisor is never 0, see
    [current_fps_range]). *)
Definition target_step (fps : Z) : float :=
  fdiv (float_of_int 1) (float_of_int fps).

(** [dt = CLOCK.tick(60) / 1000.0; step_timer += dt] *)
Definition frame_timer (i : FrameInput) (st : MainState) : float :=
  fadd (step_timer st) (fdiv (float_of_int (dt_ms i)) (float_of_int 1000)).

(** One turn of the outer [while running] loop (without the rendering);
    [fuel] bounds the inner loop. *)
Definition frame (fuel : nat) (i : FrameInput) (st : MainState)
  : M (option LoopEnd) :=
  let timer := frame_timer i st in
  let stat := if existsb is_quit (events i) then NotRunning else status st in
  let g := fold_left (fun g e => handle_input e g) (events i) (game st) in
  if paused g then ret (Some (mkMain g timer stat, []))
  else
    let '(fps, g) := current_fps (frame_now i) g in
    e <- fixed_steps fuel (target_step fps) (frame_env i) O timer g ;;
    match e with
    | Some (st', log) =>
        ret (Some (mkMain (game st') (step_timer st')
                     (match status st' with Running => stat | s => s end),
                   log))
    | None => ret None
    end.

(** ** Sessions: input events interleaved with simulation steps *)

Inductive Op : Type :=
| OpInput (e : Event)
| OpStep (now : Z) (c : Choice).

(** Runs [ops] on [g] and returns the reports of the steps taken; the run
    ends early when the player leaves at a game-over screen. *)
Fixpoint run_ops (ops : list Op) (g : Game) : M (list StepReport) :=
  match ops with
  | [] => ret []
  | OpInput e :: ops' => run_ops ops' (handle_input e g)
  | OpStep now c :: ops' =>
      r <- sim_step now c g ;;
      match outcome r with
      | Continue g' | Restarted _ g' =>
          log <- run_ops ops' g' ;; ret (r :: log)
      | Stopped _ | Exited _ => ret [r]
      end
  end.

(** A whole session: a new game, then the operations. *)
Definition session (now0 : Z) (ops : list Op) : M (list StepReport) :=
  g <- Game_init now0 ;; run_ops ops g.

(** * Notions used in the statements *)

(** The level agrees with the score. *)
Definition level_ok (g : Game) : Prop :=
  level g = 1 + score g / LEVEL_UP_EVERY.

(** The effect still in force at [now], if any. *)
Definition effect_in_force (now : Z) (g : Game) : option Kind :=
  match active_power g with
  | Some (k, e) => if e <? now then None else Some k
  | None => None
  end.

(** The multiplier of an effect, in tenths. *)
Definition effect_tenths (o : option Kind) : Z :=
  match o with
  | Some Speed => 14
  | Some Slow => 6
  | Some Bonus | None => 10
  end.

Definition clampQ (x lo hi : Q) : Q :=
  if Qle_bool x lo then lo else if Qle_bool hi x then hi else x.

(** The rate as the specification words it: the level-based rate is
    clamped to [MIN_RATE = 6, MAX_RATE = MAX_FPS] first and the clamped
    value is multiplied by the effect's multiplier. *)
Definition spec_step_rate (now : Z) (g : Game) : Q :=
  (clampQ (inject_Z FPS_BASE + inject_Z (level g - 1) * (3 # 2))
          (inject_Z 6) (inject_Z MAX_FPS)
   * fst (power_multiplier now g))%Q.









(** The part of the state that carries the snake's movement, and the
    obstacles. *)
Definition motion (g : Game) : list Cell * Dir * Dir :=
  (snake g, dir g, next_dir g).

Definition obstacles (g : Game) : list Rect * list MovingObstacle :=
  (static_obstacles g, moving_obstacles g).

(** The cell one step from the head of [g] in the buffered direction. *)
Definition next_head (g : Game) : option Cell :=
  match head_of (snake g) with
  | Some h => Some (fst h + fst (next_dir g), snd h + snd (next_dir g))
  | None => None
  end.

(** The game a step leaves behind. *)
Definition game_after (o : Outcome) : Game :=
  match o with
  | Continue g => g
  | Restarted _ fresh => fresh
  | Stopped g => g
  | Exited g => g
  end.

Definition is_unit_dir (d : Dir) : Prop :=
  d = UP \/ d = DOWN \/ d = LEFT \/ d = RIGHT.

(** Both directions run along the same axis. *)
Definition same_axis (d1 d2 : Dir) : bool :=
  ((fst d1 =? 0) && (fst d2 =? 0)) || ((snd d1 =? 0) && (snd d2 =? 0)).

(** The direction an event asks for, if it is a direction command. *)
Definition requested (e : Event) : option Dir :=
  match e with
  | KEYDOWN (K_w | K_UP) => Some UP
  | KEYDOWN (K_s | K_DOWN) => Some DOWN
  | KEYDOWN (K_a | K_LEFT) => Some LEFT
  | KEYDOWN (K_d | K_RIGHT) => Some RIGHT
  | _ => None
  end.

(** The buffered direction is never the reverse of the committed one. *)
Definition dir_inv (g : Game) : Prop :=
  is_unit_dir (dir g) /\ is_unit_dir (next_dir g) /\
  next_dir g <> opposite (dir g).

(** No two successive reports commit opposite directions. *)
Definition reversal_free (log : list StepReport) : Prop :=
  forall i a b,
    nth_error log i = Some a -> nth_error log (S i) = Some b ->
    committed b <> opposite (committed a).

(** Along a log that starts with committed direction [d]: every step finds
    the direction the previous one left (the spawn direction after a
    collision) and does not commit its opposite. *)
Fixpoint chain (d : Dir) (log : list StepReport) : Prop :=
  match log with
  | [] => True
  | r :: log' =>
      heading r = d /\ committed r <> opposite d /\
      chain (if collided r then spawn_dir else committed r) log'
  end.

(** * Sample games *)

(** The game [Game()] builds at time 0 from the draws [start_draws]: food
    at (0, 60), six static obstacles in the second column, two moving
    strips on row 3. *)
Definition start_draws : list Z :=
  [0; 3;
   0; 0; 0; 0;  0; 1; 0; 0;  0; 2; 0; 0;  0; 3; 0; 0;  0; 4; 0; 0;  0; 5; 0; 0;
   0; 0; 0;  0; 0; 0].

Definition game_start : Game :=
  {| score := 0; high := 0; level := 1; lives := 3;
     snake := [(300, 220); (300, 200)];
     dir := UP; next_dir := UP;
     food := (0, 60); special_food := None; special_spawned_at := 0;
     powerups := []; active_power := None;
     static_obstacles := [mkRect 20 40 40 20; mkRect 20 60 40 20;
                          mkRect 20 80 40 20; mkRect 20 100 40 20;
                          mkRect 20 120 40 20; mkRect 20 140 40 20];
     moving_obstacles := [mkMoving (mkRect 20 60 40 20) 2;
                          mkMoving (mkRect 20 60 40 20) 2];
     last_special_check := 0; paused := false |}.

(** Two points into level 1, the four-segment snake about to move up onto
    a Bonus power-up. *)
Definition game_before_bonus : Game :=
  set_powerups [mkPowerUp Bonus (300, 140) 0]
    (set_score 2
       (set_snake [(300, 220); (300, 200); (300, 180); (300, 160)]
          game_start)).

(** One point into level 1, a Speed effect applied at time 1000. *)
Definition game_with_speed : Game :=
  apply_power 1000 Speed
    (set_score 1 (set_snake [(300, 220); (300, 200); (300, 180)] game_start)).

(** The same effect at level 8 (score 35), one life down. *)
Definition game_level8_speed : Game :=
  set_lives 2 (set_level 8 (set_score 35 game_with_speed)).

(** A frame of 200 ms with no events: the bound is 12 steps. *)
Definition frame_200ms : FrameInput :=
  mkFrame 200 [] 0 (fun _ => mkEnv 0 PressQ).

(** A frame of one second with no events. *)
Definition frame_1000ms : FrameInput :=
  mkFrame 1000 [] 0 (fun _ => mkEnv 0 PressQ).


(** A four-segment snake curled in a square: its head at (300, 220) is
    about to turn up into (300, 200), the cell its tail is leaving. *)
Definition game_chasing_tail : Game :=
  set_score 2
    (set_dir LEFT
       (set_snake [(300, 200); (320, 200); (320, 220); (300, 220)] game_start)).

(** A three-segment snake on row 2, heading up into the top band. *)
Definition game_below_band : Game :=
  set_score 1 (set_snake [(300, 80); (300, 60); (300, 40)] game_start).

(** The new game with the food on the cell ahead of the snake: the step
    eats it (the draws give the next food at (100, 100) and no power-up). *)
Definition game_food_ahead : Game := set_food (300, 180) game_start.

(** On the last life with three points, the snake heading up into the top
    band. *)
Definition game_last_life : Game :=
  set_lives 1
    (set_score 3
       (set_snake [(300, 120); (300, 100); (300, 80); (300, 60); (300, 40)]
          game_start)).

(** Left, one step, down, ten steps along column 280 to the bottom edge
    (the tenth leaves the field and costs a life), one more step. *)
Definition ops_into_bottom_wall : list Op :=
  [OpInput (KEYDOWN K_LEFT); OpStep 0 PressQ;
   OpInput (KEYDOWN K_DOWN); OpStep 0 PressQ]
  ++ repeat (OpStep 0 PressQ) 10.

(** * Notions for the properties of the remaining code *)

(** A cell on the grid. *)
Definition aligned (c : Cell) : Prop :=
  fst c mod GRID = 0 /\ snd c mod GRID = 0.

(** A cell [check_collisions] does not count as wall: inside the window
    and below the two rows of the top band. *)
Definition in_field (c : Cell) : Prop :=
  0 <= fst c < WIDTH /\ GRID * 2 <= snd c < HEIGHT.

(** Where [spawn_food] can put something: on the grid, inside the window,
    from the fourth row down. *)
Definition playfield (c : Cell) : Prop :=
  aligned c /\ 0 <= fst c < WIDTH /\ GRID * 3 <= snd c < HEIGHT.

(** A static obstacle as [make_obstacles] places it: its corner on the
    grid, left or right of the band [WIDTH/2 - 3*GRID, WIDTH/2 + 3*GRID],
    two or three cells wide and one or two cells high. *)
Definition static_ok (o : Rect) : Prop :=
  aligned (rx o, ry o) /\
  GRID <= rx o <= WIDTH - GRID * 2 /\
  (rx o < WIDTH / 2 - 3 * GRID \/ WIDTH / 2 + 3 * GRID < rx o) /\
  GRID * 2 <= ry o <= HEIGHT - GRID * 2 /\
  (rw o = GRID * 2 \/ rw o = GRID * 3) /\
  (rh o = GRID \/ rh o = GRID * 2).

(** A moving obstacle as [make_obstacles] creates it. *)
Definition moving_made (m : MovingObstacle) : Prop :=
  rx (rect m) = GRID /\
  aligned (rx (rect m), ry (rect m)) /\
  GRID * 3 <= ry (rect m) <= HEIGHT - GRID * 2 /\
  (rw (rect m) = GRID * 2 \/ rw (rect m) = GRID * 3) /\
  rh (rect m) = GRID /\
  (dx m = 2 \/ dx m = 3).

(** A moving obstacle on its way: it sticks out of the window by less than
    one stride, and when it touches or crosses an edge it is heading back. *)
Definition in_lane (m : MovingObstacle) : Prop :=
  dx m <> 0 /\
  - Z.abs (dx m) < rx (rect m) /\
  rx (rect m) + rw (rect m) < WIDTH + Z.abs (dx m) /\
  (rx (rect m) <= 0 -> 0 < dx m) /\
  (WIDTH <= rx (rect m) + rw (rect m) -> dx m < 0).

(** The corner [make_obstacles] keeps in [taken]. *)
Definition corner (o : Rect) : Cell := (rx o, ry o).

(** Successive cells are neighbours on the grid. *)
Fixpoint connected (l : list Cell) : Prop :=
  match l with
  | a :: (b :: _) as rest =>
      is_unit_dir (fst b - fst a, snd b - snd a) /\ connected rest
  | _ => True
  end.

(** The game a step hands on to the next one, when the loop goes on. *)
Definition continuing (o : Outcome) : option Game :=
  match o with
  | Continue g => Some g
  | Restarted _ fresh => Some fresh
  | Stopped _ | Exited _ => None
  end.

(** Invariants of the games a session passes through. *)
Definition snake_ok (g : Game) : Prop :=
  (2 <= length (snake g))%nat /\
  NoDup (snake g) /\
  Forall in_field (snake g) /\
  Forall (fun c => hits_static (static_obstacles g) c = false) (snake g).

Definition snake_on_grid (g : Game) : Prop :=
  dir_inv g /\ Forall aligned (snake g) /\ connected (snake g).

Definition ledger_ok (g : Game) : Prop :=
  0 <= score g /\
  1 <= level g <= 1 + score g / LEVEL_UP_EVERY /\
  1 <= lives g <= LIVES_START /\
  high g = 0.

Definition field_ok (g : Game) : Prop :=
  length (static_obstacles g) = NUM_STATIC_OBSTACLES /\
  Forall static_ok (static_obstacles g) /\
  length (moving_obstacles g) = NUM_MOVING_OBSTACLES /\
  Forall in_lane (moving_obstacles g) /\
  Forall (fun m => Z.abs (dx m) = 2 \/ Z.abs (dx m) = 3) (moving_obstacles g).

Definition items_ok (g : Game) : Prop :=
  playfield (food g) /\
  (forall c, special_food g = Some c -> playfield c) /\
  Forall (fun p => playfield (pos p)) (powerups g).

(** Every game a finished session handed on satisfies [P]. *)
Definition always (P : Game -> Prop) (log : list StepReport) : Prop :=
  forall r g, In r log -> continuing (outcome r) = Some g -> P g.

(** The fields [update] leaves alone, besides the snake's [motion]. *)
Definition books (g : Game)
  : Z * Z * Z * Z * list Rect * Cell * option (Kind * Z) * bool :=
  (score g, level g, lives g, high g, static_obstacles g, food g,
   active_power g, paused g).

(** The fields no eating and no pick-up touches. *)
Definition fixtures (g : Game)
  : Z * Z * list Cell * Dir * Dir * list Rect * list MovingObstacle * bool :=
  (lives g, high g, snake g, dir g, next_dir g,
   static_obstacles g, moving_obstacles g, paused g).

(** The event loop of [game_over_screen], over the events as they arrive:
    the first [QUIT], [R], [Q] or [ESCAPE] decides; [None] while the screen
    is still waiting. *)
Definition decisive (e : Event) : option Choice :=
  match e with
  | QUIT => Some CloseWindow
  | KEYDOWN K_r => Some PressR
  | KEYDOWN K_q | KEYDOWN K_ESCAPE => Some PressQ
  | _ => None
  end.

Fixpoint game_over_screen (evs : list Event) : option Choice :=
  match evs with
  | [] => None
  | e :: rest =>
      match decisive e with
      | Some c => Some c
      | None => game_over_screen rest
      end
  end.

(** The new game with a special food on the cell ahead of the snake. *)
Definition game_special_ahead : Game :=
  set_special_spawned_at 0 (set_special_food (Some (300, 180)) game_start).

(** * Properties *)

(** ** Reasoning about computations *)

Lemma bind_Done {A B} (m : M A) (k : A -> M B) ds b rest :
  bind m k ds = Done b rest ->
  exists a ds', m ds = Done a ds' /\ k a ds' = Done b rest.
Proof.
  unfold bind. destruct (m ds) as [a ds'| |]; try discriminate.
  intros H. exists a, ds'. split; [reflexivity | exact H].
Qed.

Lemma ret_Done {A} (a b : A) ds rest :
  ret a ds = Done b rest -> b = a /\ rest = ds.
Proof. unfold ret. intros H. inversion H. split; reflexivity. Qed.

Lemma liftO_Done {A} (o : option A) ds a rest :
  liftO o ds = Done a rest -> o = Some a /\ rest = ds.
Proof.
  unfold liftO. destruct o; intros H; inversion H. split; reflexivity.
Qed.

Lemma draw_Done ds r rest : draw ds = Done r rest -> ds = r :: rest.
Proof. destruct ds; simpl; intros H; inversion H. reflexivity. Qed.

(** Splits a hypothesis [bind m k ds = Done b rest] into its two halves. *)
Ltac bind_inv H :=
  let a := fresh "a" in
  let ds := fresh "ds" in
  let H1 := fresh "Hm" in
  apply bind_Done in H; destruct H as (a & ds & H1 & H).

Ltac ret_inv H :=
  unfold ret in H; inversion H; subst; clear H.

Ltac lift_inv H :=
  apply liftO_Done in H; destruct H as [H ?]; subst.

Ltac draw_inv H := apply draw_Done in H; subst.

(** ** Score and level *)

Lemma update_level_ok g : level_ok (update_level g).
Proof. reflexivity. Qed.

Lemma maybe_spawn_powerup_score now g ds g' rest :
  maybe_spawn_powerup now g ds = Done g' rest ->
  score g' = score g /\ level g' = level g /\ snake g' = snake g.
Proof.
  unfold maybe_spawn_powerup. intros H. bind_inv H.
  destruct (chance POWERUP_CHANCE_PCT a).
  - bind_inv H. bind_inv H. ret_inv H. simpl. auto.
  - ret_inv H. auto.
Qed.

(** Eating food recomputes the level from the new score. *)
Lemma eat_food_level_ok now g ds g' rest :
  eat_food now g ds = Done (true, g') rest ->
  score g' = score g + 1 /\ level_ok g'.
Proof.
  unfold eat_food. intros H. bind_inv H.
  destruct ((fst a =? fst (food g)) && (snd a =? snd (food g))).
  - bind_inv H. bind_inv H. ret_inv H.
    apply maybe_spawn_powerup_score in Hm1. destruct Hm1 as (Hs & Hl & _).
    unfold level_ok. rewrite Hs, Hl. simpl. split; reflexivity.
  - ret_inv H.
Qed.

(** Eating special food recomputes the level as well. *)
Lemma eat_special_food_level_ok g g' :
  eat_special_food g = Some (true, g') ->
  score g' = score g + SPECIAL_FOOD_VALUE /\ level_ok g'.
Proof.
  unfold eat_special_food. destruct (special_food g) as [sf|]; [|discriminate].
  destruct (head_of (snake g)) as [h|]; [|discriminate].
  destruct ((fst h =? fst sf) && (snd h =? snd sf)); intros H; inversion H.
  split; reflexivity.
Qed.

(** C1 (the code departs from the claim). The level is recomputed after
    eating food and after eating special food, but [apply_power] adds the
    three Bonus points without calling [update_level]: from score 2, level 1
    the Bonus brings the score to 5 while the level stays 1, where
    [1 + score // LEVEL_UP_EVERY] is 2.  The stale level is still there when
    the simulation step that picked the power-up up has finished. *)
Theorem apply_power_bonus_leaves_level_stale :
  level_ok game_before_bonus /\
  score (apply_power 100 Bonus game_before_bonus) = 5 /\
  level (apply_power 100 Bonus game_before_bonus) = 1 /\
  1 + score (apply_power 100 Bonus game_before_bonus) / LEVEL_UP_EVERY = 2 /\
  exists r g' rest,
    sim_step 100 PressQ game_before_bonus [] = Done r rest /\
    outcome r = Continue g' /\ collided r = false /\
    score g' = 5 /\ level g' = 1 /\ ~ level_ok g'.
Proof.
  repeat split.
  eexists. eexists. eexists.
  split; [vm_compute; reflexivity|].
  repeat split. vm_compute. discriminate.
Qed.

(** ** The active effect *)

(** C6. [power_multiplier] returns 1.0 when no effect is set or the expiry
    has passed ([now > end]), and in the second case clears the effect and
    nothing else; asked again, at whatever time, it returns 1.0 again and
    finds no effect.  While the effect is in force it returns 1.4 for Speed,
    0.6 for Slow and 1.0 for Bonus and leaves the game as it is. *)
Theorem power_multiplier_lazy_expiry (now : Z) (g : Game) :
  (active_power g = None -> power_multiplier now g = (1%Q, g)) /\
  (forall k e, active_power g = Some (k, e) -> e < now ->
     power_multiplier now g = (1%Q, set_active_power None g)) /\
  ((active_power g = None \/
    exists k e, active_power g = Some (k, e) /\ e < now) ->
     let g' := snd (power_multiplier now g) in
     active_power g' = None /\
     forall now', power_multiplier now' g' = (1%Q, g')) /\
  (forall k e, active_power g = Some (k, e) -> now <= e ->
     power_multiplier now g = (kind_multiplier k, g)) /\
  kind_multiplier Speed = (14 # 10)%Q /\
  kind_multiplier Slow = (6 # 10)%Q /\
  kind_multiplier Bonus = 1%Q.
Proof.
  unfold power_multiplier. repeat split.
  - intros H. rewrite H. reflexivity.
  - intros k e H Hlt. rewrite H.
    destruct (Z.ltb_spec e now); [reflexivity | lia].
  - destruct H as [H | (k & e & H & Hlt)]; rewrite H; simpl.
    + exact H.
    + destruct (Z.ltb_spec e now); [reflexivity | lia].
  - intros now'. destruct H as [H | (k & e & H & Hlt)]; rewrite H; simpl.
    + rewrite H. reflexivity.
    + destruct (Z.ltb_spec e now); [reflexivity | lia].
  - intros k e H Hle. rewrite H.
    destruct (Z.ltb_spec e now); [lia | reflexivity].
Qed.

Lemma power_multiplier_lazy_expiry_witness :
  power_multiplier 5499 game_with_speed = ((14 # 10)%Q, game_with_speed) /\
  power_multiplier 5501 game_with_speed
    = (1%Q, set_active_power None game_with_speed) /\
  power_multiplier 5502 (snd (power_multiplier 5501 game_with_speed))
    = (1%Q, snd (power_multiplier 5501 game_with_speed)).
Proof.
  split; [|split].
  - apply (proj1 (proj2 (proj2 (proj2
      (power_multiplier_lazy_expiry 5499 game_with_speed)))) Speed 5500);
      [reflexivity | lia].
  - apply (proj1 (proj2 (power_multiplier_lazy_expiry 5501 game_with_speed))
             Speed 5500); [reflexivity | lia].
  - apply (proj1 (proj2 (proj2
      (power_multiplier_lazy_expiry 5501 game_with_speed)))).
    right. exists Speed, 5500. split; [reflexivity | lia].
Defined.

(** ** The step rate *)

Lemma power_multiplier_in_force now g :
  fst (power_multiplier now g)
  = match effect_in_force now g with
    | Some k => kind_multiplier k
    | None => 1%Q
    end.
Proof.
  unfold power_multiplier, effect_in_force.
  destruct (active_power g) as [[k e]|]; [|reflexivity].
  destruct (e <? now); reflexivity.
Qed.

Lemma py_int_fps_base lvl o :
  1 <= lvl ->
  py_int (fps_base lvl *
          match o with Some k => kind_multiplier k | None => 1%Q end)
  = ((2 * FPS_BASE + 3 * (lvl - 1)) * effect_tenths o) / 20.
Proof.
  intros Hl. unfold py_int, fps_base, FPS_BASE.
  destruct o as [[| |]|]; cbn -[Z.mul Z.quot Z.div Z.add Z.sub];
    rewrite Z.quot_div_nonneg by lia;
    try (f_equal; ring);
    change 20 with (2 * 10); rewrite Z.div_mul_cancel_r by lia;
    f_equal; ring.
Qed.

(** C3 (counterexample). Clamping first and scaling afterwards is not what
    [current_fps] computes.  At level 8 with Speed the code returns 30, the
    formula of the claim gives 31.5; at level 1 with Speed the code returns
    16, the formula gives 16.8. *)
Lemma current_fps_is_not_clamp_then_scale :
  fst (current_fps 2000 game_level8_speed) = 30 /\
  (spec_step_rate 2000 game_level8_speed == 315 # 10)%Q /\
  ~ (inject_Z (fst (current_fps 2000 game_level8_speed))
     == spec_step_rate 2000 game_level8_speed)%Q /\
  fst (current_fps 2000 game_with_speed) = 16 /\
  (spec_step_rate 2000 game_with_speed == 168 # 10)%Q /\
  ~ (inject_Z (fst (current_fps 2000 game_with_speed))
     == spec_step_rate 2000 game_with_speed)%Q.
Proof.
  repeat split; try reflexivity; vm_compute; discriminate.
Qed.

(** C3 (amended). [current_fps] multiplies the unclamped level-based rate
    [FPS_BASE + (level-1)*1.5] by the multiplier of the effect in force,
    truncates the product to an integer and clamps that integer to
    [6, MAX_FPS]; the query clears an expired effect like
    [power_multiplier] does.  For levels from 1 on this is
    [clamp(((2*FPS_BASE + 3*(level-1)) * tenths) // 20, 6, MAX_FPS)] with
    [tenths] 14 for Speed, 6 for Slow and 10 otherwise. *)
Theorem current_fps_scales_then_clamps (now : Z) (g : Game) :
  fst (current_fps now g)
  = Z.max 6 (Z.min MAX_FPS
      (py_int (fps_base (level g) * fst (power_multiplier now g)))) /\
  snd (current_fps now g) = snd (power_multiplier now g) /\
  (1 <= level g ->
   fst (current_fps now g)
   = Z.max 6 (Z.min MAX_FPS
       (((2 * FPS_BASE + 3 * (level g - 1))
         * effect_tenths (effect_in_force now g)) / 20))).
Proof.
  assert (E : fst (current_fps now g)
    = Z.max 6 (Z.min MAX_FPS
        (py_int (fps_base (level g) * fst (power_multiplier now g))))).
  { unfold current_fps. destruct (power_multiplier now g). reflexivity. }
  split; [exact E | split].
  - unfold current_fps. destruct (power_multiplier now g). reflexivity.
  - intros Hl. rewrite E, power_multiplier_in_force.
    rewrite py_int_fps_base by exact Hl. reflexivity.
Qed.

Lemma current_fps_scales_then_clamps_witness :
  fst (current_fps 2000 game_level8_speed)
  = Z.max 6 (Z.min MAX_FPS (((2 * FPS_BASE + 3 * (8 - 1)) * 14) / 20)).
Proof.
  apply (proj2 (proj2 (current_fps_scales_then_clamps 2000 game_level8_speed))).
  vm_compute. discriminate.
Defined.

(** ** Losing a life *)

(** C8. The life-loss reset takes one life, puts the snake back on its two
    spawn segments heading up (committed and buffered direction alike),
    clears the active effect, and leaves score, level, both obstacle lists,
    food, special food and the power-ups as they were (and the high score,
    the timers and the pause flag too).  This holds for any number of
    lives, in particular while lives remain. *)
Theorem reset_after_hit_frame (g : Game) :
  lives (reset_after_hit g) = lives g - 1 /\
  snake (reset_after_hit g) = [(300, 220); (300, 200)] /\
  snake (reset_after_hit g) = spawn_snake /\
  dir (reset_after_hit g) = UP /\
  next_dir (reset_after_hit g) = UP /\
  active_power (reset_after_hit g) = None /\
  score (reset_after_hit g) = score g /\
  level (reset_after_hit g) = level g /\
  static_obstacles (reset_after_hit g) = static_obstacles g /\
  moving_obstacles (reset_after_hit g) = moving_obstacles g /\
  food (reset_after_hit g) = food g /\
  special_food (reset_after_hit g) = special_food g /\
  powerups (reset_after_hit g) = powerups g /\
  high (reset_after_hit g) = high g /\
  special_spawned_at (reset_after_hit g) = special_spawned_at g /\
  last_special_check (reset_after_hit g) = last_special_check g /\
  paused (reset_after_hit g) = paused g.
Proof. repeat split. Qed.

(** The reset is what the step runs when its collision check succeeds, and
    while lives remain the step then goes on to [update]. *)
Lemma resolve_hit_resets now c g ds :
  check_collisions g = Some true ->
  1 < lives g ->
  resolve now c g ds
  = bind (update now (reset_after_hit g))
         (fun g' => ret (true, Continue g')) ds.
Proof.
  intros Hc Hl. unfold resolve, bind at 1. unfold liftO. rewrite Hc.
  replace (lives (reset_after_hit g) <=? 0) with false; [reflexivity|].
  symmetry. apply Z.leb_gt. simpl. lia.
Qed.

(** ** Binary64 arithmetic on timers

    What the scheduler needs of the operations of [SpecFloat]: the order of
    canonical doubles is the order of their values, and sums, differences
    and quotients of non-negative doubles are canonical doubles close to
    the exact results.  Values are counted in units of 2^-1074. *)


Lemma digits2_pos_bounds p :
  2 ^ (Z.pos (digits2_pos p) - 1) <= Z.pos p < 2 ^ Z.pos (digits2_pos p).
Proof.
  induction p as [p IH|p IH|]; cbn [digits2_pos].
  - rewrite Pos2Z.inj_succ.
    replace (Z.succ (Z.pos (digits2_pos p)) - 1) with (Z.succ (Z.pos (digits2_pos p) - 1)) by lia.
    rewrite !Z.pow_succ_r by lia. lia.
  - rewrite Pos2Z.inj_succ.
    replace (Z.succ (Z.pos (digits2_pos p)) - 1) with (Z.succ (Z.pos (digits2_pos p) - 1)) by lia.
    rewrite !Z.pow_succ_r by lia. lia.
  - simpl. lia.
Qed.

Lemma Zdigits2_bounds m :
  0 < m -> 2 ^ (Zdigits2 m - 1) <= m < 2 ^ Zdigits2 m.
Proof.
  destruct m as [|p|p]; try lia. intros _. apply digits2_pos_bounds.
Qed.

Lemma Zdigits2_pos m : 0 < m -> 0 < Zdigits2 m.
Proof. destruct m; simpl; lia. Qed.


(** *** Canonical mantissas *)






(** *** Shifting a mantissa right *)






(** *** Rounding *)




Lemma Zdigits2_mono a b : 0 < a -> a <= b -> Zdigits2 a <= Zdigits2 b.
Proof.
  intros Ha Hab.
  pose proof (Zdigits2_bounds a Ha) as [La _].
  pose proof (Zdigits2_bounds b ltac:(lia)) as [_ Ub].
  pose proof (Zdigits2_pos a Ha).
  destruct (Z.le_gt_cases (Zdigits2 a) (Zdigits2 b)) as [H1|H1]; [exact H1|].
  assert (2 ^ Zdigits2 b <= 2 ^ (Zdigits2 a - 1)) by (apply Z.pow_le_mono_r; lia).
  lia.
Qed.















(** ** The scheduler *)


(** *** Values as rationals *)




(** *** The step duration *)



(** *** The inner loop *)




Example Game_init_start : Game_init 0 start_draws = Done game_start [].
Proof. reflexivity. Qed.

(** ** Spawning food *)

Lemma cell_eqb_refl c : cell_eqb c c = true.
Proof. unfold cell_eqb. rewrite !Z.eqb_refl. reflexivity. Qed.

Lemma cell_eqb_eq a b : cell_eqb a b = true <-> a = b.
Proof.
  unfold cell_eqb. destruct a as [ax ay], b as [bx b_y]. simpl.
  rewrite andb_true_iff, !Z.eqb_eq. split.
  - intros [-> ->]. reflexivity.
  - intros H. inversion H. auto.
Qed.

Lemma cell_mem_In c l : cell_mem c l = true <-> In c l.
Proof.
  unfold cell_mem. rewrite existsb_exists. split.
  - intros (x & Hin & He). apply cell_eqb_eq in He. subst. exact Hin.
  - intros Hin. exists c. split; [exact Hin | apply cell_eqb_refl].
Qed.

Lemma existsb_false_In {A} (f : A -> bool) l x :
  existsb f l = false -> In x l -> f x = false.
Proof.
  intros He Hin. destruct (f x) eqn:E; [|reflexivity].
  assert (existsb f l = true) by (apply existsb_exists; eauto). congruence.
Qed.

(** What the acceptance test of [spawn_food] guarantees. *)
Lemma spawn_ok_sound sn so mo p :
  spawn_ok sn so mo p = true ->
  ~ In p sn /\
  (forall obs o, so = Some obs -> In o obs ->
                 colliderect o (cell_rect p) = false) /\
  (forall mobs m, mo = Some mobs -> In m mobs ->
                  colliderect (rect m) (cell_rect p) = false) /\
  GRID * 2 < snd p.
Proof.
  unfold spawn_ok. rewrite !andb_true_iff, !negb_true_iff, orb_false_iff.
  intros [[Hsn [Hso Hmo]] Hy]. repeat split.
  - intros Hin. apply cell_mem_In in Hin. congruence.
  - intros obs o -> Hin.
    apply (existsb_false_In (fun o => colliderect o (cell_rect p)) obs o Hso Hin).
  - intros mobs m -> Hin.
    apply (existsb_false_In (fun m => colliderect (rect m) (cell_rect p))
             mobs m Hmo Hin).
  - apply Z.ltb_lt. exact Hy.
Qed.

(** The loop returns the first candidate that passes the test. *)
Lemma spawn_food_accepts sn so mo :
  forall n ds p rest,
    (length ds <= n)%nat ->
    spawn_food sn so mo ds = Done p rest ->
    spawn_ok sn so mo p = true /\
    exists r1 r2, p = grid_pos r1 r2.
Proof.
  induction n as [|n IH]; intros ds p rest Hlen H.
  - destruct ds; [discriminate | simpl in Hlen; lia].
  - destruct ds as [|r1 [|r2 ds']]; try discriminate.
    simpl in H. destruct (spawn_ok sn so mo (grid_pos r1 r2)) eqn:E.
    + inversion H; subst. split; [exact E | eauto].
    + apply (IH ds' p rest); [simpl in Hlen; lia | exact H].
Qed.



(** The loop does return when the supply holds an acceptable candidate. *)
Lemma spawn_food_finds sn so mo r1 r2 post :
  spawn_ok sn so mo (grid_pos r1 r2) = true ->
  forall n pre, length pre = (2 * n)%nat ->
    exists p rest, spawn_food sn so mo (pre ++ r1 :: r2 :: post) = Done p rest.
Proof.
  intros Hok. induction n as [|n IH]; intros pre Hlen.
  - destruct pre; [|discriminate]. simpl. rewrite Hok. eauto.
  - destruct pre as [|a [|b pre']]; try (simpl in Hlen; lia).
    simpl. destruct (spawn_ok sn so mo (grid_pos a b)); [eauto|].
    apply IH. simpl in Hlen. lia.
Qed.

(** The first food of a game is placed before [make_obstacles] runs: it is
    off the snake and below the band, and that is all. *)
Lemma reset_all_food now ds g rest :
  reset_all now ds = Done g rest ->
  ~ In (food g) (snake g) /\ GRID * 2 < snd (food g).
Proof.
  unfold reset_all. intros H. bind_inv H. bind_inv H.
  destruct a0 as [obs mobs]. ret_inv H.
  destruct (spawn_food_accepts _ _ _ _ _ _ _ (le_n _) Hm) as [Hok _].
  apply spawn_ok_sound in Hok. destruct Hok as (H1 & _ & _ & H2).
  split; assumption.
Qed.

(** C9. The first food of a game can lie under an obstacle.  [reset_all]
    calls [spawn_food] before [make_obstacles] has run, when the object has
    no obstacle lists yet, and the test of [spawn_food] then looks at the
    snake and the top band only.  With draws that put the food on (20, 60)
    and the second static obstacle on [Rect(20, 60, 40, 20)], the new game
    has its food inside that obstacle.  The test of [spawn_food] on the
    finished game, the one every respawn runs, rejects this very cell; and a
    snake that moves onto the food eats it and loses a life in the same
    step. *)
Theorem initial_food_under_obstacle :
  exists g rest,
    Game_init 0 (1 :: 3 :: tl (tl start_draws)) = Done g rest /\
    food g = (20, 60) /\
    In (mkRect 20 60 40 20) (static_obstacles g) /\
    colliderect (mkRect 20 60 40 20) (cell_rect (food g)) = true /\
    spawn_ok (snake g) (Some (static_obstacles g))
      (Some (moving_obstacles g)) (food g) = false /\
    exists r rest',
      sim_step 0 PressQ
        (set_next_dir RIGHT (set_dir DOWN (set_snake [(0, 40); (0, 60)] g)))
        [5; 5; 50]
      = Done r rest' /\
      ate r = true /\ collided r = true /\
      lives (game_after (outcome r)) = lives g - 1.
Proof.
  eexists. eexists. split; [vm_compute; reflexivity|].
  split; [reflexivity|]. split; [right; left; reflexivity|].
  split; [reflexivity|]. split; [reflexivity|].
  eexists. eexists. split; [vm_compute; reflexivity|].
  repeat split.
Qed.

(** ** What a simulation step does to the snake *)

Lemma maybe_spawn_powerup_frame now g ds g' rest :
  maybe_spawn_powerup now g ds = Done g' rest ->
  motion g' = motion g /\ obstacles g' = obstacles g.
Proof.
  unfold maybe_spawn_powerup. intros H. bind_inv H.
  destruct (chance POWERUP_CHANCE_PCT a).
  - bind_inv H. bind_inv H. ret_inv H. split; reflexivity.
  - ret_inv H. split; reflexivity.
Qed.

Lemma eat_food_frame now g ds a g' rest :
  eat_food now g ds = Done (a, g') rest ->
  motion g' = motion g /\ obstacles g' = obstacles g.
Proof.
  unfold eat_food. intros H. bind_inv H.
  destruct ((fst a0 =? fst (food g)) && (snd a0 =? snd (food g))).
  - bind_inv H. bind_inv H. ret_inv H.
    apply maybe_spawn_powerup_frame in Hm1. exact Hm1.
  - ret_inv H. split; reflexivity.
Qed.

Lemma eat_special_food_frame g s g' :
  eat_special_food g = Some (s, g') ->
  motion g' = motion g /\ obstacles g' = obstacles g.
Proof.
  unfold eat_special_food. destruct (special_food g) as [sf|].
  - destruct (head_of (snake g)) as [h|]; [|discriminate].
    destruct ((fst h =? fst sf) && (snd h =? snd sf));
      intros H; inversion H; split; reflexivity.
  - intros H; inversion H; split; reflexivity.
Qed.

Lemma pickup_powerup_frame now g b g' :
  pickup_powerup now g = Some (b, g') ->
  motion g' = motion g /\ obstacles g' = obstacles g.
Proof.
  unfold pickup_powerup. destruct (head_of (snake g)) as [h|]; [|discriminate].
  destruct (pop_first_hit (cell_rect h) (powerups g)) as [[p l]|];
    intros H; inversion H; [|split; reflexivity].
  unfold apply_power. destruct (kind p); split; reflexivity.
Qed.

Lemma update_frame now g ds g' rest :
  update now g ds = Done g' rest -> motion g' = motion g.
Proof.
  unfold update. intros H. bind_inv H. ret_inv H.
  assert (E : motion a = motion g).
  { destruct (_ && _) in Hm.
    - bind_inv Hm. destruct (chance 50 a0).
      + unfold spawn_special_food in Hm. bind_inv Hm. ret_inv Hm. reflexivity.
      + ret_inv Hm. reflexivity.
    - ret_inv Hm. reflexivity. }
  rewrite <- E. destruct (is_some (special_food a) && _); reflexivity.
Qed.

Lemma head_of_snoc l h : head_of (l ++ [h]) = Some h.
Proof.
  unfold head_of. destruct (l ++ [h]) eqn:E.
  - destruct l; discriminate.
  - rewrite <- E, last_last. reflexivity.
Qed.

Lemma move_snake_spec g g1 :
  move_snake g = Some g1 ->
  exists h, next_head g = Some h /\
            motion g1 = (snake g ++ [h], next_dir g, next_dir g) /\
            obstacles g1 = obstacles g.
Proof.
  unfold move_snake, next_head. simpl.
  destruct (head_of (snake g)) as [[hx hy]|]; [|discriminate].
  intros H. inversion H. eexists. split; [reflexivity|]. split; reflexivity.
Qed.

(** After the first half of a step the snake is the old one with the new
    head appended; eating and picking up do not touch it. *)
Lemma advance_spec now g ds a s g1 rest :
  advance now g ds = Done (a, s, g1) rest ->
  exists h, next_head g = Some h /\
            motion g1 = (snake g ++ [h], next_dir g, next_dir g) /\
            obstacles g1 = obstacles g.
Proof.
  unfold advance. intros H.
  bind_inv H. lift_inv Hm. bind_inv H. destruct a1 as [a' g2].
  bind_inv H. lift_inv Hm1. destruct a1 as [s' g3].
  bind_inv H. lift_inv Hm2. destruct a1 as [b g4]. ret_inv H.
  apply move_snake_spec in Hm. destruct Hm as (h & Hh & Hmo & Hob).
  apply eat_food_frame in Hm0. destruct Hm0 as [Hmo0 Hob0].
  apply eat_special_food_frame in Hm1. destruct Hm1 as [Hmo1 Hob1].
  apply pickup_powerup_frame in Hm2. destruct Hm2 as [Hmo2 Hob2].
  exists h. split; [exact Hh|]. split; congruence.
Qed.

(** The snake [check_collisions] looks at, after [trim_tail]. *)
Lemma trim_tail_spec grew g1 g2 l h :
  snake g1 = l ++ [h] -> l <> [] ->
  trim_tail grew g1 = Some g2 ->
  snake g2 = (if grew then l else tl l) ++ [h] /\
  dir g2 = dir g1 /\ next_dir g2 = next_dir g1 /\
  obstacles g2 = obstacles g1.
Proof.
  unfold trim_tail. intros Hs Hl. destruct grew; simpl.
  - intros H. inversion H. subst. auto.
  - rewrite Hs. destruct l as [|x l]; [congruence|]. simpl.
    intros H. inversion H. auto.
Qed.

Lemma next_head_nonempty g h : next_head g = Some h -> snake g <> [].
Proof.
  unfold next_head, head_of. destruct (snake g); [discriminate | discriminate].
Qed.

Lemma reset_all_spec now ds g rest :
  reset_all now ds = Done g rest ->
  motion g = (spawn_snake, spawn_dir, spawn_dir) /\
  score g = 0 /\ high g = 0 /\ level g = 1 /\ lives g = LIVES_START.
Proof.
  unfold reset_all. intros H. bind_inv H. bind_inv H.
  destruct a0 as [obs mobs]. ret_inv H. repeat split.
Qed.

(** The second half of a step: without a collision the snake is kept;
    with one the game that goes on has the spawn snake. *)
Lemma resolve_spec now c g ds hit out rest :
  resolve now c g ds = Done (hit, out) rest ->
  check_collisions g = Some hit /\
  (hit = false -> motion (game_after out) = motion g) /\
  (hit = true ->
   motion (game_after out) = (spawn_snake, spawn_dir, spawn_dir)).
Proof.
  unfold resolve. intros H. bind_inv H. lift_inv Hm. destruct a.
  - destruct (lives (reset_after_hit g) <=? 0).
    + destruct c.
      * bind_inv H. ret_inv H. apply reset_all_spec in Hm0.
        split; [exact Hm|]. split; [discriminate|]. intros _. apply Hm0.
      * ret_inv H. split; [exact Hm|]. split; [discriminate|]. reflexivity.
      * ret_inv H. split; [exact Hm|]. split; [discriminate|]. reflexivity.
    + bind_inv H. ret_inv H. apply update_frame in Hm0.
      split; [exact Hm|]. split; [discriminate|]. intros _. exact Hm0.
  - bind_inv H. ret_inv H. apply update_frame in Hm0.
    split; [exact Hm|]. split; [intros _; exact Hm0 | discriminate].
Qed.

(** A complete description of a finished step. *)
Lemma sim_step_spec now c g ds r rest :
  sim_step now c g ds = Done r rest ->
  exists h g1 g2 ds1 ds2,
    next_head g = Some h /\
    advance now g ds = Done (ate r, ate_special r, g1) ds1 /\
    snake g1 = snake g ++ [h] /\
    trim_tail (ate r || ate_special r) g1 = Some g2 /\
    snake g2 = (if ate r || ate_special r then snake g else tl (snake g)) ++ [h] /\
    obstacles g2 = obstacles g /\
    check_collisions g2 = Some (collided r) /\
    resolve now c g2 ds1 = Done (collided r, outcome r) ds2 /\
    heading r = dir g /\ committed r = next_dir g /\
    dir g2 = next_dir g /\ next_dir g2 = next_dir g.
Proof.
  unfold sim_step. intros H.
  bind_inv H. destruct a as [[a s] g1].
  bind_inv H. lift_inv Hm0. destruct (bind_Done _ _ _ _ _ H) as (p & ds2 & Hr & Hret).
  destruct p as [hit out]. ret_inv Hret. simpl.
  destruct (advance_spec _ _ _ _ _ _ _ Hm) as (h & Hh & Hmo & Hob).
  inversion Hmo as [[Hs Hd Hn]].
  destruct (trim_tail_spec _ _ _ _ _ Hs (next_head_nonempty _ _ Hh) Hm0)
    as (Hs2 & Hd2 & Hn2 & Hob2).
  exists h, g1, a0, ds0, rest.
  destruct (resolve_spec _ _ _ _ _ _ _ Hr) as (Hc & _ & _).
  repeat split; try assumption; congruence.
Qed.

(** ** Where the collision check stands in a step *)

(** C2 (counterexample). The check does not see the body as it is right
    after the move.  In this step the new head (300, 200) is a segment of
    the post-move body (the tail cell), and [check_collisions] on the state
    before [trim_tail] answers true; the step itself trims first, finds no
    collision and costs no life. *)
Lemma collision_check_misses_vacated_tail :
  exists g1 ds1 r rest,
    advance 0 game_chasing_tail [] = Done (false, false, g1) ds1 /\
    head_of (snake g1) = Some (300, 200) /\
    In (300, 200) (removelast (snake g1)) /\
    check_collisions g1 = Some true /\
    sim_step 0 PressQ game_chasing_tail [] = Done r rest /\
    collided r = false /\
    lives (game_after (outcome r)) = lives game_chasing_tail.
Proof.
  eexists. eexists. eexists. eexists.
  split; [vm_compute; reflexivity|].
  split; [reflexivity|].
  split; [simpl; auto|].
  split; [reflexivity|].
  split; [vm_compute; reflexivity|].
  split; reflexivity.
Qed.

Lemma check_collisions_snoc g l h :
  snake g = l ++ [h] ->
  check_collisions g
  = Some (hits_wall h || cell_mem h l
          || hits_static (static_obstacles g) h
          || hits_moving (moving_obstacles g) h).
Proof.
  intros Hs. unfold check_collisions.
  rewrite Hs, head_of_snoc, removelast_last.
  destruct (hits_wall h), (cell_mem h l), (hits_static _ h); reflexivity.
Qed.

(** C2 (amended). In every simulation step the collision check runs after
    the new head is appended and after [trim_tail]: it is evaluated on the
    trimmed state, so the self-collision test ranges over the old body
    without its tail cell when the snake did not grow, and over the whole
    old body only when it grew. *)
Theorem collision_check_runs_after_trim now c g ds r rest :
  sim_step now c g ds = Done r rest ->
  exists h g1 g2 ds1,
    next_head g = Some h /\
    advance now g ds = Done (ate r, ate_special r, g1) ds1 /\
    snake g1 = snake g ++ [h] /\
    trim_tail (ate r || ate_special r) g1 = Some g2 /\
    check_collisions g2 = Some (collided r) /\
    collided r
    = hits_wall h
      || cell_mem h (if ate r || ate_special r then snake g else tl (snake g))
      || hits_static (static_obstacles g) h
      || hits_moving (moving_obstacles g) h.
Proof.
  intros H.
  destruct (sim_step_spec _ _ _ _ _ _ H)
    as (h & g1 & g2 & ds1 & ds2 & Hh & Ha & Hs1 & Ht & Hs2 & Hob & Hc & _).
  exists h, g1, g2, ds1. repeat split; try assumption.
  rewrite (check_collisions_snoc _ _ _ Hs2) in Hc.
  unfold obstacles in Hob. injection Hob as Hst Hmv.
  rewrite Hst, Hmv in Hc. injection Hc as E. symmetry. exact E.
Qed.

Lemma collision_check_runs_after_trim_witness :
  exists r rest,
    sim_step 0 PressQ game_chasing_tail [] = Done r rest /\
    exists h g1 g2 ds1,
      next_head game_chasing_tail = Some h /\
      advance 0 game_chasing_tail [] = Done (ate r, ate_special r, g1) ds1 /\
      snake g1 = snake game_chasing_tail ++ [h] /\
      trim_tail (ate r || ate_special r) g1 = Some g2 /\
      check_collisions g2 = Some (collided r) /\
      collided r
      = hits_wall h
        || cell_mem h (if ate r || ate_special r
                       then snake game_chasing_tail
                       else tl (snake game_chasing_tail))
        || hits_static (static_obstacles game_chasing_tail) h
        || hits_moving (moving_obstacles game_chasing_tail) h.
Proof.
  eexists. eexists. split; [vm_compute; reflexivity|].
  apply (collision_check_runs_after_trim 0 PressQ game_chasing_tail [])
    with (rest := []).
  vm_compute. reflexivity.
Defined.

(** ** Snake length *)

(** C7 (counterexample). A step in which neither [eat_food] nor
    [eat_special_food] returns true can change the segment count: the
    three-segment snake runs into the top band and the step leaves the two
    spawn segments. *)
Lemma collision_step_changes_length :
  exists r rest,
    sim_step 0 PressQ game_below_band [] = Done r rest /\
    ate r = false /\ ate_special r = false /\
    length (snake game_below_band) = 3%nat /\
    length (snake (game_after (outcome r))) = 2%nat.
Proof.
  eexists. eexists. split; [vm_compute; reflexivity|].
  repeat split.
Qed.

(** C7 (amended). In a simulation step in which no collision is detected
    the segment count grows by exactly one if [eat_food] or
    [eat_special_food] returned true and is unchanged otherwise; a step in
    which a collision is detected leaves the two spawn segments. *)
Theorem snake_length_after_step now c g ds r rest :
  sim_step now c g ds = Done r rest ->
  (collided r = false ->
   length (snake (game_after (outcome r)))
   = (length (snake g) + (if ate r || ate_special r then 1 else 0))%nat) /\
  (collided r = true ->
   snake (game_after (outcome r)) = spawn_snake /\
   length (snake (game_after (outcome r))) = 2%nat).
Proof.
  intros H.
  destruct (sim_step_spec _ _ _ _ _ _ H)
    as (h & g1 & g2 & ds1 & ds2 & Hh & _ & _ & _ & Hs2 & _ & _ & Hr & _).
  destruct (resolve_spec _ _ _ _ _ _ _ Hr) as (_ & Hno & Hyes).
  split.
  - intros Hc. specialize (Hno Hc). inversion Hno as [[Hs Hd Hn]].
    rewrite Hs, Hs2, length_app. simpl.
    destruct (ate r || ate_special r); [reflexivity|].
    apply next_head_nonempty in Hh. destruct (snake g); [congruence|].
    simpl. lia.
  - intros Hc. specialize (Hyes Hc). inversion Hyes as [[Hs Hd Hn]].
    rewrite Hs. split; reflexivity.
Qed.

Lemma snake_length_after_step_witness :
  exists r rest,
    sim_step 0 PressQ game_food_ahead [5; 5; 50] = Done r rest /\
    ate r = true /\ collided r = false /\
    length (snake (game_after (outcome r)))
    = (length (snake game_food_ahead)
       + (if ate r || ate_special r then 1 else 0))%nat.
Proof.
  eexists. eexists. split; [vm_compute; reflexivity|].
  split; [reflexivity|]. split; [reflexivity|].
  apply (proj1 (snake_length_after_step 0 PressQ game_food_ahead [5; 5; 50]
                  _ [] ltac:(vm_compute; reflexivity))).
  reflexivity.
Defined.

(** ** The high score *)

(** What the game-over branch does to the high score, and what a restart
    does to it. *)
Lemma resolve_game_over now c g ds hit out rest :
  resolve now c g ds = Done (hit, out) rest ->
  match out with
  | Continue _ => True
  | Restarted over fresh =>
      high over = Z.max (high g) (score g) /\ score over = score g /\
      high fresh = 0 /\ score fresh = 0
  | Stopped over | Exited over =>
      high over = Z.max (high g) (score g) /\ score over = score g
  end.
Proof.
  unfold resolve. intros H. bind_inv H. lift_inv Hm. destruct a.
  - destruct (lives (reset_after_hit g) <=? 0).
    + destruct c.
      * bind_inv H. ret_inv H. apply reset_all_spec in Hm0.
        destruct Hm0 as (_ & Hs & Hh & _). repeat split; assumption.
      * ret_inv H. split; reflexivity.
      * ret_inv H. split; reflexivity.
    + bind_inv H. ret_inv H. exact I.
  - bind_inv H. ret_inv H. exact I.
Qed.

(** C4 (the code departs from the claim). The game-over branch records
    [high = max(high, score)] on the finished game, here 3, but a restart
    replaces the object by [Game()], whose [reset_all] sets [high = 0]: the
    high score of the session is lost with the restart. *)
Theorem restart_forgets_high_score :
  exists r rest over fresh,
    sim_step 0 PressR game_last_life start_draws = Done r rest /\
    collided r = true /\
    outcome r = Restarted over fresh /\
    score over = 3 /\ high over = 3 /\
    high fresh = 0 /\ Z.max (high fresh) (score fresh) = 0.
Proof.
  eexists. eexists. eexists. eexists.
  split; [vm_compute; reflexivity|].
  repeat split.
Qed.

(** ** Direction changes *)

(** C5 (counterexample). Successive committed directions can be opposite:
    in this session the eleventh step commits Down and ends in a collision
    with the bottom edge; the life-loss reset puts the snake back heading
    up, and the twelfth step commits Up. *)
Lemma reset_reverses_committed_direction :
  exists log rest a b,
    session 0 ops_into_bottom_wall start_draws = Done log rest /\
    nth_error log 10 = Some a /\ nth_error log 11 = Some b /\
    committed a = DOWN /\ collided a = true /\
    committed b = UP /\ committed b = opposite (committed a) /\
    ~ reversal_free log.
Proof.
  eexists. eexists. eexists. eexists.
  split; [vm_compute; reflexivity|].
  split; [reflexivity|]. split; [reflexivity|].
  repeat split.
  intros H. apply (H 10%nat _ _ eq_refl eq_refl). reflexivity.
Qed.

Lemma unit_dir_not_own_opposite d : is_unit_dir d -> d <> opposite d.
Proof. intros [H | [H | [H | H]]]; subst; discriminate. Qed.

Lemma handle_input_dir e g : dir (handle_input e g) = dir g.
Proof.
  unfold handle_input. destruct e as [k| |]; try reflexivity.
  repeat match goal with
         | |- context [if ?b then _ else _] => destruct b
         end; try reflexivity.
  destruct k; reflexivity.
Qed.

(** A direction command replaces the buffered direction exactly when its
    axis differs from the committed one; nothing else touches the buffer. *)
Lemma handle_input_next_dir e g :
  is_unit_dir (dir g) ->
  next_dir (handle_input e g)
  = match requested e with
    | Some d => if same_axis d (dir g) then next_dir g else d
    | None => next_dir g
    end.
Proof.
  unfold handle_input, requested, same_axis.
  intros [H | [H | [H | H]]]; rewrite H;
    destruct e as [k| |]; try reflexivity; destruct k; reflexivity.
Qed.

Lemma handle_input_dir_inv e g : dir_inv g -> dir_inv (handle_input e g).
Proof.
  intros (Hd & Hn & Hne). unfold dir_inv.
  rewrite handle_input_dir, (handle_input_next_dir e g Hd).
  split; [exact Hd|].
  destruct (requested e) as [d|] eqn:Er; [|split; assumption].
  destruct (same_axis d (dir g)) eqn:Ea; [split; assumption|].
  assert (Hu : is_unit_dir d).
  { unfold requested in Er. destruct e as [k| |]; try discriminate.
    unfold is_unit_dir. destruct k; inversion Er; auto. }
  split; [exact Hu|].
  unfold same_axis in Ea.
  destruct Hd as [H | [H | [H | H]]]; rewrite H in *;
    destruct Hu as [U | [U | [U | U]]]; subst d; simpl in Ea;
    try discriminate; discriminate.
Qed.

(** What a finished step does to the directions. *)
Lemma sim_step_dirs now c g ds r rest :
  dir_inv g ->
  sim_step now c g ds = Done r rest ->
  heading r = dir g /\ committed r = next_dir g /\
  committed r <> opposite (heading r) /\
  dir (game_after (outcome r)) = (if collided r then spawn_dir else committed r) /\
  dir_inv (game_after (outcome r)).
Proof.
  intros (Hd & Hn & Hne) H.
  destruct (sim_step_spec _ _ _ _ _ _ H)
    as (h & g1 & g2 & ds1 & ds2 & _ & _ & _ & _ & _ & _ & _ & Hr
        & Hhead & Hcom & Hd2 & Hn2).
  destruct (resolve_spec _ _ _ _ _ _ _ Hr) as (_ & Hno & Hyes).
  rewrite Hhead, Hcom. split; [reflexivity|]. split; [reflexivity|].
  split; [exact Hne|].
  destruct (collided r).
  - specialize (Hyes eq_refl). unfold motion in Hyes.
    injection Hyes as Hs Hdir Hnext. split; [exact Hdir|].
    unfold dir_inv. rewrite Hdir, Hnext.
    assert (U : is_unit_dir spawn_dir) by (left; reflexivity).
    split; [exact U|]. split; [exact U|]. discriminate.
  - specialize (Hno eq_refl). unfold motion in Hno.
    injection Hno as Hs Hdir Hnext. split; [congruence|].
    unfold dir_inv. rewrite Hdir, Hnext, Hd2, Hn2.
    split; [exact Hn|]. split; [exact Hn|].
    apply unit_dir_not_own_opposite, Hn.
Qed.

Lemma run_ops_chain ops :
  forall g ds log rest,
    dir_inv g -> run_ops ops g ds = Done log rest -> chain (dir g) log.
Proof.
  induction ops as [|op ops IH]; intros g ds log rest Hinv H.
  - simpl in H. ret_inv H. exact I.
  - destruct op as [e | now c]; simpl in H.
    + rewrite <- (handle_input_dir e g).
      apply (IH _ _ _ _ (handle_input_dir_inv e g Hinv) H).
    + bind_inv H.
      destruct (sim_step_dirs _ _ _ _ _ _ Hinv Hm)
        as (Hh & Hc & Hne & Hdir & Hinv').
      rewrite Hh in Hne.
      destruct (outcome a) as [g' | over g' | over | over] eqn:Eo;
        simpl in Hdir, Hinv'.
      * bind_inv H. ret_inv H. simpl. rewrite <- Hdir.
        split; [exact Hh|]. split; [exact Hne|]. apply (IH _ _ _ _ Hinv' Hm0).
      * bind_inv H. ret_inv H. simpl. rewrite <- Hdir.
        split; [exact Hh|]. split; [exact Hne|]. apply (IH _ _ _ _ Hinv' Hm0).
      * ret_inv H. simpl. auto.
      * ret_inv H. simpl. auto.
Qed.

Lemma chain_In d log r :
  chain d log -> In r log -> committed r <> opposite (heading r).
Proof.
  revert d. induction log as [|x log IH]; intros d Hc Hin; [contradiction|].
  destruct Hc as (Hh & Hne & Hc). destruct Hin as [<- | Hin].
  - rewrite Hh. exact Hne.
  - apply (IH _ Hc Hin).
Qed.

Lemma chain_adjacent d log i a b :
  chain d log ->
  nth_error log i = Some a -> nth_error log (S i) = Some b ->
  heading b = (if collided a then spawn_dir else committed a) /\
  committed b <> opposite (heading b).
Proof.
  revert d i. induction log as [|x log IH]; intros d i Hc Ha Hb.
  - destruct i; discriminate.
  - destruct Hc as (_ & _ & Hc). destruct i as [|i].
    + simpl in Ha. injection Ha as ->. simpl in Hb.
      destruct log as [|y log]; [discriminate|].
      simpl in Hb. injection Hb as ->.
      destruct Hc as (Hh & Hne & _). rewrite Hh. split; [reflexivity | exact Hne].
    + apply (IH _ i Hc Ha Hb).
Qed.

Lemma Game_init_dir_inv now ds g rest :
  Game_init now ds = Done g rest -> dir_inv g.
Proof.
  intros H. apply reset_all_spec in H. destruct H as (Hm & _).
  unfold motion in Hm. injection Hm as _ Hd Hn. unfold dir_inv.
  rewrite Hd, Hn. assert (U : is_unit_dir spawn_dir) by (left; reflexivity).
  split; [exact U|]. split; [exact U|]. discriminate.
Qed.

(** C5 (amended). In every session of input events interleaved with
    simulation steps, the direction a step commits is never the opposite
    of the direction in force when the step begins; that direction is the
    one the previous step committed, unless the previous step ended in a
    collision, after which it is the spawn direction Up.  So two successive
    steps commit opposite directions only across a life-loss reset or a
    restart.  A direction command replaces the buffered direction exactly
    when its axis differs from the committed axis, and no event changes the
    committed direction. *)
Theorem no_reversal_within_a_life now0 ops ds log rest :
  session now0 ops ds = Done log rest ->
  (forall r, In r log -> committed r <> opposite (heading r)) /\
  (forall i a b,
      nth_error log i = Some a -> nth_error log (S i) = Some b ->
      heading b = (if collided a then UP else committed a) /\
      (collided a = false -> committed b <> opposite (committed a))) /\
  (forall e g,
      is_unit_dir (dir g) ->
      dir (handle_input e g) = dir g /\
      next_dir (handle_input e g)
      = match requested e with
        | Some d => if same_axis d (dir g) then next_dir g else d
        | None => next_dir g
        end).
Proof.
  unfold session. intros H. bind_inv H.
  pose proof (run_ops_chain ops _ _ _ _ (Game_init_dir_inv _ _ _ _ Hm) H)
    as Hc.
  split; [|split].
  - intros r Hin. apply (chain_In _ _ _ Hc Hin).
  - intros i x y Hx Hy.
    destruct (chain_adjacent _ _ _ _ _ Hc Hx Hy) as [Hh Hne].
    split; [exact Hh|]. intros Hcol. rewrite Hcol in Hh.
    rewrite Hh in Hne. exact Hne.
  - intros e g Hu. split;
      [apply handle_input_dir | apply handle_input_next_dir, Hu].
Qed.

(** In the session that runs into the bottom edge: the second step finds
    Left, the direction the first committed, and commits Down. *)
Lemma no_reversal_within_a_life_witness :
  exists log rest a b,
    session 0 ops_into_bottom_wall start_draws = Done log rest /\
    nth_error log 0 = Some a /\ nth_error log 1 = Some b /\
    heading b = (if collided a then UP else committed a) /\
    (collided a = false -> committed b <> opposite (committed a)).
Proof.
  eexists. eexists. eexists. eexists.
  split; [vm_compute; reflexivity|].
  split; [reflexivity|]. split; [reflexivity|].
  apply (proj1 (proj2 (no_reversal_within_a_life 0 ops_into_bottom_wall
                         start_draws _ []
                         ltac:(vm_compute; reflexivity))) 0%nat);
    reflexivity.
Defined.

(** * Further properties of the code *)

(** ** Random positions *)

Lemma randrange_bounds a b r : a < b -> a <= randrange a b r < b.
Proof.
  intros H. unfold randrange.
  pose proof (Z.mod_pos_bound r (b - a)). lia.
Qed.

Lemma aligned_mul x y : aligned (x * GRID, y * GRID).
Proof. unfold aligned. simpl. rewrite !Z_mod_mult. split; reflexivity. Qed.

Lemma grid_pos_bounds r1 r2 :
  aligned (grid_pos r1 r2) /\
  0 <= fst (grid_pos r1 r2) <= WIDTH - GRID /\
  0 <= snd (grid_pos r1 r2) <= HEIGHT - GRID.
Proof.
  unfold grid_pos. split; [apply aligned_mul|]. simpl fst. simpl snd.
  change (WIDTH / GRID) with 30. change (HEIGHT / GRID) with 20.
  unfold randrange, WIDTH, HEIGHT, GRID. simpl.
  pose proof (Z.mod_pos_bound r1 30 ltac:(lia)).
  pose proof (Z.mod_pos_bound r2 20 ltac:(lia)). lia.
Qed.

(** X1. [grid_pos] returns a cell of the 30 x 20 grid whatever the draws
    are: both coordinates are multiples of [GRID] and the cell's square
    lies inside the window. *)
Theorem grid_pos_in_window (r1 r2 : Z) :
  aligned (grid_pos r1 r2) /\
  0 <= fst (grid_pos r1 r2) /\
  fst (grid_pos r1 r2) + GRID <= WIDTH /\
  0 <= snd (grid_pos r1 r2) /\
  snd (grid_pos r1 r2) + GRID <= HEIGHT.
Proof.
  destruct (grid_pos_bounds r1 r2) as (Ha & Hx & Hy).
  split; [exact Ha|]. lia.
Qed.

Lemma playfield_not_wall c : playfield c -> hits_wall c = false.
Proof.
  unfold playfield, hits_wall, WIDTH, HEIGHT, GRID. intros (_ & Hx & Hy).
  rewrite !orb_false_iff. repeat split.
  - apply Z.ltb_ge. lia.
  - apply Z.leb_gt. lia.
  - apply Z.ltb_ge. lia.
  - apply Z.leb_gt. lia.
Qed.

Lemma spawn_ok_playfield sn so mo r1 r2 :
  spawn_ok sn so mo (grid_pos r1 r2) = true -> playfield (grid_pos r1 r2).
Proof.
  intros H. apply spawn_ok_sound in H. destruct H as (_ & _ & _ & Hy).
  destruct (grid_pos_bounds r1 r2) as (Ha & Hx & Hy').
  unfold playfield. split; [exact Ha|].
  destruct Ha as [_ Hm]. unfold WIDTH, HEIGHT, GRID in *.
  set (x := fst (grid_pos r1 r2)) in *. set (y := snd (grid_pos r1 r2)) in *.
  clearbody x y. split; [lia | Z.to_euclidean_division_equations; lia].
Qed.

Lemma spawn_food_playfield sn so mo ds p rest :
  spawn_food sn so mo ds = Done p rest -> playfield p.
Proof.
  intros H.
  destruct (spawn_food_accepts sn so mo _ ds p rest (le_n _) H)
    as (Hok & r1 & r2 & ->).
  apply (spawn_ok_playfield _ _ _ _ _ Hok).
Qed.

(** X2. Whatever [spawn_food] returns is a grid cell inside the window
    from the fourth row down ([y >= 3*GRID]: the row [y = 2*GRID], which the
    snake may enter, is never used), so [check_collisions] never counts a
    spawned cell as wall. *)
Theorem spawn_food_in_playfield sn so mo ds p rest :
  spawn_food sn so mo ds = Done p rest ->
  aligned p /\
  0 <= fst p < WIDTH /\
  GRID * 3 <= snd p < HEIGHT /\
  hits_wall p = false.
Proof.
  intros H. pose proof (spawn_food_playfield _ _ _ _ _ _ H) as Hp.
  pose proof (playfield_not_wall _ Hp) as Hw.
  destruct Hp as (Ha & Hx & Hy). auto.
Qed.

(** The first candidate (300, 40) lies on row 2 and is turned down. *)
Lemma spawn_food_in_playfield_witness :
  aligned (100, 100) /\
  0 <= fst (100, 100) < WIDTH /\
  GRID * 3 <= snd (100, 100) < HEIGHT /\
  hits_wall (100, 100) = false.
Proof.
  apply (spawn_food_in_playfield (snake game_start)
           (Some (static_obstacles game_start))
           (Some (moving_obstacles game_start))
           [15; 2; 5; 5] (100, 100) []).
  reflexivity.
Defined.

(** ** Obstacles *)

Lemma choice2_cases {A} (x y : A) r : choice2 x y r = x \/ choice2 x y r = y.
Proof. unfold choice2. destruct (r mod 2 =? 0); auto. Qed.

(** One accepted static obstacle: well placed, on a corner not taken yet. *)
Lemma static_obstacle_spec taken :
  forall n ds o taken' rest,
    (length ds <= n)%nat ->
    static_obstacle taken ds = Done (o, taken') rest ->
    static_ok o /\ ~ In (corner o) taken /\ taken' = corner o :: taken.
Proof.
  induction n as [|n IH]; intros ds o taken' rest Hlen H.
  - destruct ds; [discriminate | simpl in Hlen; lia].
  - destruct ds as [|r1 [|r2 ds']]; try discriminate.
    cbn [static_obstacle] in H.
    pose proof (randrange_bounds 1 (WIDTH / GRID - 1) r1 ltac:(reflexivity))
      as Hx.
    pose proof (randrange_bounds 2 (HEIGHT / GRID - 1) r2 ltac:(reflexivity))
      as Hy.
    set (R1 := randrange 1 (WIDTH / GRID - 1) r1) in *.
    set (R2 := randrange 2 (HEIGHT / GRID - 1) r2) in *.
    clearbody R1 R2.
    change (WIDTH / GRID - 1) with 29 in Hx.
    change (HEIGHT / GRID - 1) with 19 in Hy.
    destruct (negb (cell_mem (R1 * GRID, R2 * GRID) taken) &&
              negb ((WIDTH / 2 - 3 * GRID <=? R1 * GRID)
                    && (R1 * GRID <=? WIDTH / 2 + 3 * GRID)))
      eqn:E.
    + destruct ds' as [|r3 [|r4 ds'']]; try discriminate.
      inversion H; subst. clear H.
      apply andb_true_iff in E. destruct E as [Et Eb].
      apply negb_true_iff in Et. apply negb_true_iff in Eb.
      split; [|split; [|reflexivity]].
      * unfold static_ok. cbn [rx ry rw rh].
        apply andb_false_iff in Eb.
        split; [apply aligned_mul|].
        split; [unfold WIDTH, GRID; lia|].
        split.
        { destruct Eb as [Eb | Eb]; [left; apply Z.leb_gt in Eb; exact Eb
                                    | right; apply Z.leb_gt in Eb; exact Eb]. }
        split; [unfold HEIGHT, GRID; lia|].
        split; apply choice2_cases.
      * unfold corner. cbn [rx ry]. intros Hin.
        apply cell_mem_In in Hin. congruence.
    + apply (IH ds' o taken' rest); [simpl in Hlen; lia | exact H].
Qed.

Lemma static_obstacles_loop_spec n :
  forall obs taken ds res rest,
    static_obstacles_loop n obs taken ds = Done res rest ->
    Forall static_ok obs -> NoDup (map corner obs) ->
    incl (map corner obs) taken ->
    length res = (length obs + n)%nat /\
    Forall static_ok res /\ NoDup (map corner res).
Proof.
  induction n as [|n IH]; intros obs taken ds res rest H Hok Hnd Hincl.
  - simpl in H. ret_inv H. rewrite Nat.add_0_r. auto.
  - simpl in H. bind_inv H. destruct a as [o taken'].
    destruct (static_obstacle_spec taken _ ds o taken' ds0 (le_n _) Hm)
      as (Ho & Hfresh & ->).
    destruct (IH (obs ++ [o]) (corner o :: taken) ds0 res rest H)
      as (Hlen & Hall & Hnd').
    + apply Forall_app. split; [exact Hok | constructor; [exact Ho | constructor]].
    + rewrite map_app. simpl. apply NoDup_app.
      * exact Hnd.
      * constructor; [intros []| constructor].
      * intros c Hc [<- | []]. apply Hfresh, Hincl, Hc.
    + rewrite map_app. simpl. intros c Hc. apply in_app_or in Hc.
      destruct Hc as [Hc | [<- | []]]; [right; apply Hincl, Hc | left; reflexivity].
    + rewrite length_app in Hlen. simpl in Hlen.
      split; [lia | split; assumption].
Qed.

Lemma moving_obstacles_loop_spec n :
  forall mobs ds res rest,
    moving_obstacles_loop n mobs ds = Done res rest ->
    Forall moving_made mobs ->
    length res = (length mobs + n)%nat /\ Forall moving_made res.
Proof.
  induction n as [|n IH]; intros mobs ds res rest H Hok.
  - simpl in H. ret_inv H. rewrite Nat.add_0_r. auto.
  - cbn [moving_obstacles_loop] in H. bind_inv H. bind_inv H. bind_inv H.
    apply IH in H.
    + destruct H as [Hlen Hall]. rewrite length_app in Hlen. simpl in Hlen.
      split; [lia | exact Hall].
    + apply Forall_app. split; [exact Hok|]. constructor; [|constructor].
      unfold moving_made. cbn [rect dx rx ry rw rh].
      pose proof (randrange_bounds 3 (HEIGHT / GRID - 1) a ltac:(reflexivity))
        as Hy.
      set (R := randrange 3 (HEIGHT / GRID - 1) a) in *. clearbody R.
      change (HEIGHT / GRID - 1) with 19 in Hy.
      split; [reflexivity|].
      split; [apply (aligned_mul 1)|].
      split; [unfold HEIGHT, GRID; lia|].
      split.
      { destruct (choice2_cases 2 3 a0) as [-> | ->]; [left | right]; reflexivity. }
      split; [reflexivity | apply choice2_cases].
Qed.

Lemma make_obstacles_spec ds obs mobs rest :
  make_obstacles ds = Done (obs, mobs) rest ->
  length obs = NUM_STATIC_OBSTACLES /\ Forall static_ok obs /\
  NoDup (map corner obs) /\
  length mobs = NUM_MOVING_OBSTACLES /\ Forall moving_made mobs.
Proof.
  unfold make_obstacles. intros H. bind_inv H. bind_inv H. ret_inv H.
  destruct (static_obstacles_loop_spec _ _ _ _ _ _ Hm
              (Forall_nil _) (NoDup_nil _) (incl_nil_l _))
    as (Hl & Ha & Hn).
  destruct (moving_obstacles_loop_spec _ _ _ _ _ Hm0 (Forall_nil _))
    as (Hl' & Ha').
  repeat split; assumption.
Qed.

(** X3. When [make_obstacles] returns, it returns exactly six static and
    two moving obstacles.  Each static one has its corner on the grid, left
    or right of the band 240..360, is 2 or 3 cells wide and 1 or 2 high, and
    no two of them share a corner (they may still overlap).  Each moving one
    is a one-cell-high strip starting at [x = GRID] on a row from the fourth
    down, 2 or 3 cells wide, with speed 2 or 3. *)
Theorem make_obstacles_layout ds obs mobs rest :
  make_obstacles ds = Done (obs, mobs) rest ->
  length obs = 6%nat /\ Forall static_ok obs /\
  NoDup (map (fun o => (rx o, ry o)) obs) /\
  length mobs = 2%nat /\ Forall moving_made mobs.
Proof. apply make_obstacles_spec. Qed.

Lemma make_obstacles_layout_witness :
  length (static_obstacles game_start) = 6%nat /\
  Forall static_ok (static_obstacles game_start) /\
  NoDup (map (fun o => (rx o, ry o)) (static_obstacles game_start)) /\
  length (moving_obstacles game_start) = 2%nat /\
  Forall moving_made (moving_obstacles game_start).
Proof.
  apply (make_obstacles_layout (tl (tl start_draws)) _ _ []).
  reflexivity.
Defined.

(** No static obstacle reaches into the columns 280..379. *)
Lemma static_ok_clear_corridor o c :
  static_ok o -> 280 <= fst c <= 360 ->
  colliderect (cell_rect c) o = false.
Proof.
  unfold static_ok, aligned, colliderect, cell_rect, WIDTH, HEIGHT, GRID.
  cbn [rx ry rw rh fst snd].
  intros ((Hax & _) & Hx & Hband & _ & Hw & _) Hc.
  assert (Hside : rx o + rw o <= fst c \/ fst c + 20 <= rx o).
  { change (600 / 2 - 3 * 20) with 240 in Hband.
    change (600 / 2 + 3 * 20) with 360 in Hband.
    Z.to_euclidean_division_equations. lia. }
  destruct Hside as [Hl | Hr].
  - replace (fst c <? rx o + rw o) with false
      by (symmetry; apply Z.ltb_ge; exact Hl). reflexivity.
  - replace (rx o <? fst c + 20) with false
      by (symmetry; apply Z.ltb_ge; exact Hr).
    rewrite andb_false_r. reflexivity.
Qed.

Lemma hits_static_corridor obs c :
  Forall static_ok obs -> 280 <= fst c <= 360 -> hits_static obs c = false.
Proof.
  intros Hall Hc. unfold hits_static.
  induction Hall as [|o obs Ho _ IH]; [reflexivity|].
  simpl. rewrite (static_ok_clear_corridor o c Ho Hc). exact IH.
Qed.

Lemma moving_made_clear o c :
  moving_made o -> 80 <= fst c -> colliderect (cell_rect c) (rect o) = false.
Proof.
  unfold moving_made, colliderect, cell_rect, GRID. cbn [rx ry rw rh fst snd].
  intros (Hx & _ & _ & Hw & _) Hc.
  replace (fst c <? rx (rect o) + rw (rect o)) with false; [reflexivity|].
  symmetry. apply Z.ltb_ge. lia.
Qed.

Lemma hits_moving_fresh mobs c :
  Forall moving_made mobs -> 80 <= fst c -> hits_moving mobs c = false.
Proof.
  intros Hall Hc. unfold hits_moving.
  induction Hall as [|o mobs Ho _ IH]; [reflexivity|].
  simpl. rewrite (moving_made_clear o c Ho Hc). exact IH.
Qed.

Lemma reset_all_obstacles now ds g rest :
  reset_all now ds = Done g rest ->
  length (static_obstacles g) = NUM_STATIC_OBSTACLES /\
  Forall static_ok (static_obstacles g) /\
  length (moving_obstacles g) = NUM_MOVING_OBSTACLES /\
  Forall moving_made (moving_obstacles g) /\
  playfield (food g) /\ special_food g = None /\ powerups g = [] /\
  active_power g = None /\ paused g = false.
Proof.
  unfold reset_all. intros H. bind_inv H. bind_inv H.
  destruct a0 as [obs mobs]. ret_inv H. cbn.
  apply make_obstacles_spec in Hm0. apply spawn_food_playfield in Hm.
  destruct Hm0 as (H1 & H2 & _ & H3 & H4).
  repeat (split; [assumption|]). repeat split.
Qed.

(** X4. A newly constructed game starts clear: the collision check on it
    answers false, and neither spawn segment lies under a static or a
    moving obstacle, whatever the random layout is. *)
Theorem Game_init_starts_clear now ds g rest :
  Game_init now ds = Done g rest ->
  check_collisions g = Some false /\
  Forall (fun c => hits_wall c = false /\
                   hits_static (static_obstacles g) c = false /\
                   hits_moving (moving_obstacles g) c = false) (snake g).
Proof.
  intros H. unfold Game_init in H.
  destruct (reset_all_spec _ _ _ _ H) as (Hm & _).
  destruct (reset_all_obstacles _ _ _ _ H) as (_ & Hs & _ & Hmv & _).
  unfold motion in Hm. injection Hm as Hsn _ _.
  assert (Hc : forall c, In c spawn_snake ->
             hits_wall c = false /\
             hits_static (static_obstacles g) c = false /\
             hits_moving (moving_obstacles g) c = false).
  { intros c [<- | [<- | []]];
      (split; [reflexivity|]; split;
       [apply hits_static_corridor; [exact Hs | cbv; split; discriminate]
       |apply hits_moving_fresh; [exact Hmv | cbv; discriminate]]). }
  split.
  - unfold check_collisions. rewrite Hsn.
    destruct (Hc (300, 200)) as (_ & H1 & H2); [right; left; reflexivity|].
    change (head_of spawn_snake) with (Some (300, 200)). cbv beta iota.
    change (hits_wall (300, 200)) with false.
    change (cell_mem (300, 200) (removelast spawn_snake)) with false.
    cbv iota. rewrite H1, H2. reflexivity.
  - rewrite Hsn. apply Forall_forall. exact Hc.
Qed.

Lemma Game_init_starts_clear_witness :
  check_collisions game_start = Some false /\
  Forall (fun c => hits_wall c = false /\
                   hits_static (static_obstacles game_start) c = false /\
                   hits_moving (moving_obstacles game_start) c = false)
         (snake game_start).
Proof.
  apply (Game_init_starts_clear 0 start_draws game_start []).
  reflexivity.
Defined.

(** One [update] of a moving obstacle keeps it in its lane. *)
Lemma MovingObstacle_update_lane m :
  in_lane m ->
  in_lane (MovingObstacle_update m) /\
  Z.abs (dx (MovingObstacle_update m)) = Z.abs (dx m) /\
  rx (rect (MovingObstacle_update m)) = rx (rect m) + dx m /\
  ry (rect (MovingObstacle_update m)) = ry (rect m) /\
  rw (rect (MovingObstacle_update m)) = rw (rect m) /\
  rh (rect (MovingObstacle_update m)) = rh (rect m).
Proof.
  unfold in_lane, MovingObstacle_update, WIDTH.
  destruct m as [[x y w h] d]. cbn [rect dx rx ry rw rh].
  intros (Hd & Hlo & Hhi & Hl & Hr).
  destruct (Z.leb_spec 600 (x + d + w)) as [E1 | E1];
    destruct (Z.leb_spec (x + d) 0) as [E2 | E2];
    cbn [orb rect dx rx ry rw rh]; repeat split; lia.
Qed.

(** X5. A moving obstacle never runs away: started inside its lane (as
    [make_obstacles] creates it) it stays, after any number of updates,
    within less than one stride of the window's left and right edges, heads
    back whenever it touches or has crossed an edge, and keeps its row, its
    size and its speed. *)
Theorem MovingObstacle_stays_in_lane (m : MovingObstacle) (n : nat) :
  in_lane m ->
  in_lane (Nat.iter n MovingObstacle_update m) /\
  Z.abs (dx (Nat.iter n MovingObstacle_update m)) = Z.abs (dx m) /\
  ry (rect (Nat.iter n MovingObstacle_update m)) = ry (rect m) /\
  rw (rect (Nat.iter n MovingObstacle_update m)) = rw (rect m) /\
  rh (rect (Nat.iter n MovingObstacle_update m)) = rh (rect m).
Proof.
  intros H. induction n as [|n (IHl & IHd & IHy & IHw & IHh)].
  - simpl. auto.
  - change (Nat.iter (S n) MovingObstacle_update m)
      with (MovingObstacle_update (Nat.iter n MovingObstacle_update m)).
    destruct (MovingObstacle_update_lane _ IHl)
      as (Hl & Hd & _ & Hy & Hw & Hh).
    split; [exact Hl|]. repeat split; congruence.
Qed.

(** The first strip of the new game after 300 updates. *)
Lemma MovingObstacle_stays_in_lane_witness :
  in_lane (Nat.iter 300 MovingObstacle_update
             (mkMoving (mkRect 20 60 40 20) 2)) /\
  Z.abs (dx (Nat.iter 300 MovingObstacle_update
               (mkMoving (mkRect 20 60 40 20) 2))) = Z.abs 2 /\
  ry (rect (Nat.iter 300 MovingObstacle_update
              (mkMoving (mkRect 20 60 40 20) 2))) = 60 /\
  rw (rect (Nat.iter 300 MovingObstacle_update
              (mkMoving (mkRect 20 60 40 20) 2))) = 40 /\
  rh (rect (Nat.iter 300 MovingObstacle_update
              (mkMoving (mkRect 20 60 40 20) 2))) = 20.
Proof.
  apply (MovingObstacle_stays_in_lane (mkMoving (mkRect 20 60 40 20) 2) 300).
  unfold in_lane, WIDTH. simpl. lia.
Defined.

(** ** Power-ups and special food *)

Lemma pop_first_hit_spec hr l :
  match pop_first_hit hr l with
  | Some (p, rest) =>
      exists l1 l2,
        l = l1 ++ p :: l2 /\ rest = l1 ++ l2 /\
        colliderect hr (PowerUp_rect p) = true /\
        Forall (fun q => colliderect hr (PowerUp_rect q) = false) l1
  | None => Forall (fun q => colliderect hr (PowerUp_rect q) = false) l
  end.
Proof.
  induction l as [|q l IH]; simpl; [constructor|].
  destruct (colliderect hr (PowerUp_rect q)) eqn:E.
  - exists [], l. repeat split; [exact E | constructor].
  - destruct (pop_first_hit hr l) as [[p rest]|].
    + destruct IH as (l1 & l2 & -> & -> & Hp & Hall).
      exists (q :: l1), l2. repeat split; [exact Hp|].
      constructor; assumption.
    + constructor; assumption.
Qed.

(** X6. [pickup_powerup] takes the first power-up, in list order, whose
    square meets the head's: that one alone leaves the list (the others
    keep their order), its kind becomes the active effect until
    [now + POWERUP_DURATION], and the score grows by 3 exactly when it is a
    Bonus; the level is not recomputed.  When no power-up meets the head the
    call returns false and changes nothing. *)
Theorem pickup_powerup_takes_first now g b g' :
  pickup_powerup now g = Some (b, g') ->
  exists h, head_of (snake g) = Some h /\
  (b = true ->
   exists p l1 l2,
     powerups g = l1 ++ p :: l2 /\
     Forall (fun q => colliderect (cell_rect h) (PowerUp_rect q) = false) l1 /\
     colliderect (cell_rect h) (PowerUp_rect p) = true /\
     powerups g' = l1 ++ l2 /\
     active_power g' = Some (kind p, now + POWERUP_DURATION) /\
     score g' = score g + (match kind p with Bonus => 3 | _ => 0 end) /\
     level g' = level g) /\
  (b = false ->
   g' = g /\
   Forall (fun q => colliderect (cell_rect h) (PowerUp_rect q) = false)
          (powerups g)).
Proof.
  unfold pickup_powerup. destruct (head_of (snake g)) as [h|]; [|discriminate].
  pose proof (pop_first_hit_spec (cell_rect h) (powerups g)) as Hp.
  destruct (pop_first_hit (cell_rect h) (powerups g)) as [[p rest]|];
    intros H; inversion H; subst; exists h; (split; [reflexivity|]).
  - split; [intros _ | discriminate].
    destruct Hp as (l1 & l2 & Hl & -> & Hc & Hall).
    exists p, l1, l2. unfold apply_power.
    destruct (kind p); cbn; repeat split; try assumption; lia.
  - split; [discriminate | intros _]. split; [reflexivity | exact Hp].
Qed.

(** The head on the Bonus power-up of the sample game. *)
Lemma pickup_powerup_takes_first_witness :
  exists h,
    head_of (snake (set_snake [(300, 160); (300, 140)] game_before_bonus))
    = Some h /\
    (true = true ->
     exists p l1 l2,
       powerups (set_snake [(300, 160); (300, 140)] game_before_bonus)
       = l1 ++ p :: l2 /\
       Forall (fun q => colliderect (cell_rect h) (PowerUp_rect q) = false) l1 /\
       colliderect (cell_rect h) (PowerUp_rect p) = true /\
       powerups (set_powerups [] (apply_power 100 Bonus
                   (set_snake [(300, 160); (300, 140)] game_before_bonus)))
       = l1 ++ l2 /\
       active_power (set_powerups [] (apply_power 100 Bonus
                   (set_snake [(300, 160); (300, 140)] game_before_bonus)))
       = Some (kind p, 100 + POWERUP_DURATION) /\
       score (set_powerups [] (apply_power 100 Bonus
                   (set_snake [(300, 160); (300, 140)] game_before_bonus)))
       = score (set_snake [(300, 160); (300, 140)] game_before_bonus)
         + (match kind p with Bonus => 3 | _ => 0 end) /\
       level (set_powerups [] (apply_power 100 Bonus
                   (set_snake [(300, 160); (300, 140)] game_before_bonus)))
       = level (set_snake [(300, 160); (300, 140)] game_before_bonus)) /\
    (true = false ->
     set_powerups [] (apply_power 100 Bonus
        (set_snake [(300, 160); (300, 140)] game_before_bonus))
     = set_snake [(300, 160); (300, 140)] game_before_bonus /\
     Forall (fun q => colliderect (cell_rect h) (PowerUp_rect q) = false)
            (powerups (set_snake [(300, 160); (300, 140)] game_before_bonus))).
Proof.
  apply (pickup_powerup_takes_first 100
           (set_snake [(300, 160); (300, 140)] game_before_bonus) true
           (set_powerups [] (apply_power 100 Bonus
              (set_snake [(300, 160); (300, 140)] game_before_bonus)))).
  reflexivity.
Defined.

(** X7. On the grid, overlap of two cell squares is equality of the cells:
    for grid-aligned positions the rectangle test used for power-up pickup
    is the exact-cell test used for food. *)
Theorem colliderect_cells_on_grid (a b : Cell) :
  aligned a -> aligned b ->
  colliderect (cell_rect a) (cell_rect b) = cell_eqb a b.
Proof.
  unfold aligned, colliderect, cell_rect, cell_eqb, GRID.
  destruct a as [ax ay], b as [bx b_y]. cbn [rx ry rw rh fst snd].
  intros [Hax Hay] [Hbx Hby].
  destruct (Z.eqb_spec ax bx) as [-> | Nx].
  - destruct (Z.eqb_spec ay b_y) as [-> | Ny].
    + replace (bx <? bx + 20) with true by (symmetry; apply Z.ltb_lt; lia).
      replace (b_y <? b_y + 20) with true by (symmetry; apply Z.ltb_lt; lia).
      reflexivity.
    + assert (Hd : ay + 20 <= b_y \/ b_y + 20 <= ay)
        by (Z.to_euclidean_division_equations; lia).
      destruct Hd as [Hd | Hd].
      * replace (b_y <? ay + 20) with false
          by (symmetry; apply Z.ltb_ge; lia).
        rewrite !andb_false_r. reflexivity.
      * replace (ay <? b_y + 20) with false
          by (symmetry; apply Z.ltb_ge; lia).
        rewrite !andb_false_r. reflexivity.
  - assert (Hd : ax + 20 <= bx \/ bx + 20 <= ax)
      by (Z.to_euclidean_division_equations; lia).
    destruct Hd as [Hd | Hd].
    + replace (bx <? ax + 20) with false by (symmetry; apply Z.ltb_ge; lia).
      rewrite !andb_false_r. reflexivity.
    + replace (ax <? bx + 20) with false by (symmetry; apply Z.ltb_ge; lia).
      reflexivity.
Qed.

Lemma colliderect_cells_on_grid_witness :
  colliderect (cell_rect (300, 140)) (cell_rect (300, 160))
  = cell_eqb (300, 140) (300, 160).
Proof.
  apply colliderect_cells_on_grid; split; reflexivity.
Defined.

(** X8. A power-up applied at time [now] is in force up to and including
    [now + POWERUP_DURATION] and gone after it: a query inside the window
    returns the kind's multiplier and changes nothing, a later one returns
    1.0 and clears the effect.  Applying a second power-up discards what was
    left of the first: only the newer kind and end time remain. *)
Theorem apply_power_window now k g :
  (forall t, t <= now + POWERUP_DURATION ->
     power_multiplier t (apply_power now k g)
     = (kind_multiplier k, apply_power now k g)) /\
  (forall t, now + POWERUP_DURATION < t ->
     power_multiplier t (apply_power now k g)
     = (1%Q, set_active_power None (apply_power now k g))) /\
  (forall now' k',
     active_power (apply_power now' k' (apply_power now k g))
     = Some (k', now' + POWERUP_DURATION)) /\
  score (apply_power now k g)
  = score g + (match k with Bonus => 3 | _ => 0 end).
Proof.
  split; [|split; [|split]].
  - intros t Ht. unfold power_multiplier.
    replace (active_power (apply_power now k g))
      with (Some (k, now + POWERUP_DURATION)) by (destruct k; reflexivity).
    destruct (Z.ltb_spec (now + POWERUP_DURATION) t); [lia | reflexivity].
  - intros t Ht. unfold power_multiplier.
    replace (active_power (apply_power now k g))
      with (Some (k, now + POWERUP_DURATION)) by (destruct k; reflexivity).
    destruct (Z.ltb_spec (now + POWERUP_DURATION) t); [reflexivity | lia].
  - intros now' k'. destruct k'; reflexivity.
  - destruct k; cbn; lia.
Qed.

Lemma apply_power_window_witness :
  power_multiplier 5500 (apply_power 1000 Slow game_start)
  = ((6 # 10)%Q, apply_power 1000 Slow game_start) /\
  power_multiplier 5501 (apply_power 1000 Slow game_start)
  = (1%Q, set_active_power None (apply_power 1000 Slow game_start)).
Proof.
  split.
  - apply (proj1 (apply_power_window 1000 Slow game_start)).
    unfold POWERUP_DURATION. lia.
  - apply (proj1 (proj2 (apply_power_window 1000 Slow game_start))).
    unfold POWERUP_DURATION. lia.
Defined.

(** X9. Special food is eaten once: when the head is on it the score grows
    by [SPECIAL_FOOD_VALUE], the level is recomputed from the new score and
    the special food is gone, so asking again on the result returns false
    and changes nothing.  Nothing but score, level and the special food
    changes. *)
Theorem eat_special_food_once g g' :
  eat_special_food g = Some (true, g') ->
  score g' = score g + 5 /\
  level g' = 1 + (score g + 5) / LEVEL_UP_EVERY /\
  special_food g' = None /\
  eat_special_food g' = Some (false, g') /\
  g' = set_special_food None
         (set_level (level g') (set_score (score g') g)).
Proof.
  unfold eat_special_food at 1.
  destruct (special_food g) as [sf|]; [|discriminate].
  destruct (head_of (snake g)) as [h|]; [|discriminate].
  destruct ((fst h =? fst sf) && (snd h =? snd sf)); [|discriminate].
  intros H. inversion H. subst g'. repeat split.
Qed.

Lemma eat_special_food_once_witness :
  exists g',
    eat_special_food (set_snake [(300, 200); (300, 180)] game_special_ahead)
    = Some (true, g') /\
    score g' = 0 + 5 /\ level g' = 2.
Proof.
  eexists. split; [reflexivity|].
  destruct (eat_special_food_once
              (set_snake [(300, 200); (300, 180)] game_special_ahead) _
              eq_refl) as (Hs & Hl & _).
  split; [exact Hs | exact Hl].
Defined.

(** ** Input *)

(** X10. The pause key toggles [paused] and nothing else, so pressing it
    twice gives the game back; the direction keys never touch [paused];
    events that are no key presses, and keys without a binding, change
    nothing at all. *)
Theorem handle_input_pause_and_idle (g : Game) :
  paused (handle_input (KEYDOWN K_p) g) = negb (paused g) /\
  handle_input (KEYDOWN K_p) g = set_paused (negb (paused g)) g /\
  handle_input (KEYDOWN K_p) (handle_input (KEYDOWN K_p) g) = g /\
  (forall e d, requested e = Some d ->
     paused (handle_input e g) = paused g) /\
  handle_input QUIT g = g /\ handle_input OtherEvent g = g /\
  (forall k, In k [K_r; K_q; K_ESCAPE; K_other] ->
     handle_input (KEYDOWN k) g = g).
Proof.
  split; [reflexivity|]. split; [reflexivity|]. split.
  { destruct g. cbn. rewrite negb_involutive. reflexivity. }
  split.
  { intros e d H. unfold handle_input, requested in *.
    destruct e as [k| |]; try discriminate.
    destruct k; try discriminate;
      repeat match goal with
             | |- context [if ?b then _ else _] => destruct b
             end; reflexivity. }
  split; [reflexivity|]. split; [reflexivity|].
  intros k Hk. simpl in Hk.
  destruct Hk as [<- | [<- | [<- | [<- | []]]]]; reflexivity.
Qed.

Lemma handle_input_pause_and_idle_witness :
  paused (handle_input (KEYDOWN K_LEFT) game_start) = paused game_start /\
  handle_input (KEYDOWN K_q) game_start = game_start.
Proof.
  split.
  - apply (proj1 (proj2 (proj2 (proj2 (handle_input_pause_and_idle game_start))))
             (KEYDOWN K_LEFT) LEFT).
    reflexivity.
  - apply (proj2 (proj2 (proj2 (proj2 (proj2 (proj2
             (handle_input_pause_and_idle game_start))))))).
    simpl. auto.
Defined.

(** ** The per-step world update *)

Lemma update_spec now g ds g' rest :
  update now g ds = Done g' rest ->
  motion g' = motion g /\ books g' = books g /\
  moving_obstacles g' = map MovingObstacle_update (moving_obstacles g) /\
  powerups g' = filter (PowerUp_alive now) (powerups g) /\
  match special_food g with
  | Some c =>
      rest = ds /\
      last_special_check g' = last_special_check g /\
      special_spawned_at g' = special_spawned_at g /\
      special_food g'
      = (if SPECIAL_FOOD_TTL <? now - special_spawned_at g then None
         else Some c)
  | None =>
      if SPECIAL_FOOD_EVERY * 1000 <? now - last_special_check g then
        last_special_check g' = now /\
        ((special_food g' = None /\
          special_spawned_at g' = special_spawned_at g) \/
         (exists c, special_food g' = Some c /\
                    special_spawned_at g' = now /\
                    playfield c /\ ~ In c (snake g)))
      else
        rest = ds /\ special_food g' = None /\
        last_special_check g' = last_special_check g /\
        special_spawned_at g' = special_spawned_at g
  end.
Proof.
  unfold update. intros H. bind_inv H. ret_inv H.
  destruct (special_food g) as [c|] eqn:Es.
  - cbn [is_some set_moving_obstacles special_food negb andb] in Hm.
    rewrite Es in Hm. cbn [is_some negb andb] in Hm. ret_inv Hm.
    cbn [special_food set_moving_obstacles]. rewrite Es.
    cbn [is_some andb special_spawned_at set_moving_obstacles].
    destruct (SPECIAL_FOOD_TTL <? now - special_spawned_at g);
      repeat split; simpl; auto.
  - cbn [is_some set_moving_obstacles special_food negb andb
         last_special_check] in Hm.
    rewrite Es in Hm. cbn [is_some negb andb] in Hm.
    destruct (SPECIAL_FOOD_EVERY * 1000 <? now - last_special_check g).
    + bind_inv Hm. destruct (chance 50 a0).
      * unfold spawn_special_food in Hm. bind_inv Hm. ret_inv Hm.
        unfold Game_spawn_food in Hm1. cbn [snake static_obstacles
          moving_obstacles set_last_special_check set_moving_obstacles] in Hm1.
        pose proof (spawn_food_playfield _ _ _ _ _ _ Hm1) as Hp.
        destruct (spawn_food_accepts _ _ _ _ _ _ _ (le_n _) Hm1) as [Hok _].
        apply spawn_ok_sound in Hok. destruct Hok as (Hsn & _).
        cbn [special_food set_special_spawned_at set_special_food is_some
             andb special_spawned_at].
        replace (SPECIAL_FOOD_TTL <? now - now) with false
          by (rewrite Z.sub_diag; reflexivity).
        repeat split. right. exists a1.
        split; [reflexivity|]. split; [reflexivity|]. split; assumption.
      * ret_inv Hm.
        cbn [special_food set_last_special_check set_moving_obstacles].
        rewrite Es. cbn [is_some andb]. repeat split. left.
        split; simpl; auto.
    + ret_inv Hm. cbn [special_food set_moving_obstacles]. rewrite Es.
      cbn [is_some andb]. repeat split; simpl; auto.
Qed.

(** X11. What [update] does at time [now]: every moving obstacle moves
    once; the power-ups kept are exactly those younger than [POWERUP_TTL],
    in their order; a special food on the field afterwards is at most
    [SPECIAL_FOOD_TTL] old; a new one can only appear when there was none
    and more than [SPECIAL_FOOD_EVERY] seconds have passed since the last
    attempt, and then it lies in the playfield off the snake; an attempt
    resets the timer whether it succeeds or not. *)
Theorem update_lifecycles now g ds g' rest :
  update now g ds = Done g' rest ->
  moving_obstacles g' = map MovingObstacle_update (moving_obstacles g) /\
  powerups g' = filter (PowerUp_alive now) (powerups g) /\
  Forall (fun p => now - spawn_time p < POWERUP_TTL) (powerups g') /\
  (forall c, special_food g' = Some c ->
     now - special_spawned_at g' <= SPECIAL_FOOD_TTL /\
     (special_food g = Some c \/
      (special_food g = None /\
       SPECIAL_FOOD_EVERY * 1000 < now - last_special_check g /\
       special_spawned_at g' = now /\ playfield c /\ ~ In c (snake g)))) /\
  (special_food g = None ->
   SPECIAL_FOOD_EVERY * 1000 < now - last_special_check g ->
   last_special_check g' = now) /\
  (now - last_special_check g <= SPECIAL_FOOD_EVERY * 1000 ->
   special_food g = None -> special_food g' = None /\ rest = ds).
Proof.
  intros H. destruct (update_spec _ _ _ _ _ H) as (_ & _ & Hmv & Hp & Hs).
  split; [exact Hmv|]. split; [exact Hp|]. split.
  { rewrite Hp. apply Forall_forall. intros p Hin.
    apply filter_In in Hin. destruct Hin as [_ Ha].
    unfold PowerUp_alive in Ha. apply Z.ltb_lt in Ha. exact Ha. }
  destruct (special_food g) as [c0|].
  - destruct Hs as (_ & _ & Hat & Hsf). split; [|split].
    + intros c Hc. rewrite Hsf in Hc.
      destruct (Z.ltb_spec SPECIAL_FOOD_TTL (now - special_spawned_at g));
        [discriminate|]. injection Hc as <-. rewrite Hat. split; [lia | left; reflexivity].
    + discriminate.
    + discriminate.
  - destruct (Z.ltb_spec (SPECIAL_FOOD_EVERY * 1000) (now - last_special_check g)).
    + destruct Hs as (Hl & Hs). split; [|split].
      * intros c Hc. destruct Hs as [(Hn & _) | (c' & Hc' & Hat & Hpf & Hsn)];
          [congruence|]. rewrite Hat, Z.sub_diag.
        split; [unfold SPECIAL_FOOD_TTL; lia|]. right.
        replace c with c' by congruence.
        split; [reflexivity|]. split; [assumption|]. split; [reflexivity|].
        split; assumption.
      * intros _ _. exact Hl.
      * intros Hle. lia.
    + destruct Hs as (Hr & Hn & _). split; [|split].
      * intros c Hc. congruence.
      * intros _ Hlt. lia.
      * intros _ _. split; assumption.
Qed.

(** The new game eleven seconds in, one power-up too old, one young; the
    draw 10 makes the spawn attempt succeed. *)
Lemma update_lifecycles_witness :
  exists g',
    update 11000
      (set_powerups [mkPowerUp Speed (100, 100) 1000;
                     mkPowerUp Slow (200, 200) 5000] game_start)
      [10; 5; 5] = Done g' [] /\
    powerups g' = [mkPowerUp Slow (200, 200) 5000] /\
    special_food g' = Some (100, 100) /\
    last_special_check g' = 11000.
Proof.
  eexists. split; [vm_compute; reflexivity|].
  destruct (update_lifecycles 11000
              (set_powerups [mkPowerUp Speed (100, 100) 1000;
                             mkPowerUp Slow (200, 200) 5000] game_start)
              [10; 5; 5] _ [] ltac:(vm_compute; reflexivity))
    as (_ & Hp & _ & _ & Hl & _).
  split; [exact Hp|]. split; [reflexivity|].
  apply Hl; [reflexivity | vm_compute; reflexivity].
Defined.

(** ** The accumulator *)






(** ** What one simulation step changes *)

(** Reduces field projections of updated games and nothing else. *)
Ltac fields :=
  cbn [score high level lives snake dir next_dir food special_food
       special_spawned_at powerups active_power static_obstacles
       moving_obstacles last_special_check paused
       set_score set_high set_level set_lives set_snake set_dir set_next_dir
       set_food set_special_food set_special_spawned_at set_powerups
       set_active_power set_moving_obstacles set_last_special_check
       set_paused update_level apply_power reset_after_hit] in *.

Lemma colliderect_comm a b : colliderect a b = colliderect b a.
Proof.
  unfold colliderect.
  destruct (rx a <? rx b + rw b), (rx b <? rx a + rw a),
    (ry a <? ry b + rh b), (ry b <? ry a + rh a); reflexivity.
Qed.

Lemma head_of_In l h : head_of l = Some h -> In h l.
Proof.
  unfold head_of. destruct l as [|x l]; [discriminate|].
  intros H. injection H as <-. revert x.
  induction l as [|y l IH]; intros x; [left; reflexivity|].
  right. apply (IH y).
Qed.

Lemma maybe_spawn_powerup_spec now g ds g' rest :
  maybe_spawn_powerup now g ds = Done g' rest ->
  fixtures g' = fixtures g /\ books g' = books g /\
  special_food g' = special_food g /\
  special_spawned_at g' = special_spawned_at g /\
  last_special_check g' = last_special_check g /\
  (powerups g' = powerups g \/
   exists p, powerups g' = powerups g ++ [p] /\
             playfield (pos p) /\ spawn_time p = now /\
             ~ In (pos p) (snake g)).
Proof.
  unfold maybe_spawn_powerup. intros H. bind_inv H.
  destruct (chance POWERUP_CHANCE_PCT a).
  - bind_inv H. bind_inv H. ret_inv H.
    unfold Game_spawn_food in Hm1.
    pose proof (spawn_food_playfield _ _ _ _ _ _ Hm1) as Hp.
    destruct (spawn_food_accepts _ _ _ _ _ _ _ (le_n _) Hm1) as [Hok _].
    apply spawn_ok_sound in Hok. destruct Hok as (Hsn & _).
    repeat (split; [reflexivity|]). right.
    eexists. split; [reflexivity|]. split; [exact Hp|].
    split; [reflexivity | exact Hsn].
  - ret_inv H. repeat (split; [reflexivity|]). left. reflexivity.
Qed.

Lemma eat_food_spec now g ds a g' rest :
  eat_food now g ds = Done (a, g') rest ->
  fixtures g' = fixtures g /\
  active_power g' = active_power g /\
  special_food g' = special_food g /\
  special_spawned_at g' = special_spawned_at g /\
  last_special_check g' = last_special_check g /\
  exists h, head_of (snake g) = Some h /\ a = cell_eqb h (food g) /\
  (a = false -> g' = g /\ rest = ds) /\
  (a = true ->
   score g' = score g + 1 /\
   level g' = 1 + (score g + 1) / LEVEL_UP_EVERY /\
   playfield (food g') /\ ~ In (food g') (snake g) /\
   hits_static (static_obstacles g) (food g') = false /\
   (powerups g' = powerups g \/
    exists p, powerups g' = powerups g ++ [p] /\
              playfield (pos p) /\ spawn_time p = now /\
              ~ In (pos p) (snake g))).
Proof.
  unfold eat_food. intros H. bind_inv H. lift_inv Hm.
  change ((fst a0 =? fst (food g)) && (snd a0 =? snd (food g)))
    with (cell_eqb a0 (food g)) in H.
  destruct (cell_eqb a0 (food g)) eqn:E.
  - bind_inv H. bind_inv H. ret_inv H.
    apply maybe_spawn_powerup_spec in Hm1.
    destruct Hm1 as (Hfx & Hbk & Hsf & Hsa & Hlc & Hpw).
    unfold fixtures in Hfx. unfold books in Hbk.
    unfold Game_spawn_food in Hm0. fields.
    injection Hfx as F1 F2 F3 F4 F5 F6 F7 F8.
    injection Hbk as B1 B2 B3 B4 B5 B6 B7 B8.
    pose proof (spawn_food_playfield _ _ _ _ _ _ Hm0) as Hp.
    destruct (spawn_food_accepts _ _ _ _ _ _ _ (le_n _) Hm0) as [Hok _].
    apply spawn_ok_sound in Hok. destruct Hok as (Hsn & Hst & _).
    split; [unfold fixtures; congruence|].
    split; [congruence|]. split; [exact Hsf|]. split; [exact Hsa|].
    split; [exact Hlc|].
    exists a0. split; [exact Hm|]. split; [symmetry; exact E|].
    split; [discriminate|]. intros _.
    split; [exact B1|]. split; [exact B2|].
    rewrite B6. split; [exact Hp|]. split; [exact Hsn|]. split.
    { unfold hits_static. destruct (existsb _ _) eqn:Ex; [|reflexivity].
      apply existsb_exists in Ex. destruct Ex as (o & Hin & Hc).
      specialize (Hst _ o eq_refl Hin).
      rewrite colliderect_comm in Hc. congruence. }
    exact Hpw.
  - ret_inv H.
    repeat (split; [reflexivity|]).
    exists a0. split; [exact Hm|]. split; [symmetry; exact E|].
    split; [intros _; split; reflexivity | discriminate].
Qed.

(** [bind_inv] with chosen names. *)
Ltac bind_as H a ds Hm :=
  apply bind_Done in H; destruct H as (a & ds & Hm & H).

Lemma eat_special_food_spec g s g' :
  eat_special_food g = Some (s, g') ->
  fixtures g' = fixtures g /\
  active_power g' = active_power g /\ food g' = food g /\
  powerups g' = powerups g /\
  special_spawned_at g' = special_spawned_at g /\
  last_special_check g' = last_special_check g /\
  (s = false -> g' = g) /\
  (s = true ->
   score g' = score g + SPECIAL_FOOD_VALUE /\
   level g' = 1 + (score g + SPECIAL_FOOD_VALUE) / LEVEL_UP_EVERY /\
   special_food g' = None /\
   exists h, head_of (snake g) = Some h /\ special_food g = Some h).
Proof.
  unfold eat_special_food. destruct (special_food g) as [sf|] eqn:Es.
  - destruct (head_of (snake g)) as [h|] eqn:Eh; [|discriminate].
    destruct ((fst h =? fst sf) && (snd h =? snd sf)) eqn:E;
      intros H; inversion H; subst; do 6 (split; [reflexivity|]).
    + split; [discriminate|]. intros _. do 3 (split; [reflexivity|]).
      exists h. split; [reflexivity|].
      apply (proj1 (cell_eqb_eq h sf)) in E. congruence.
    + split; [reflexivity | discriminate].
  - intros H; inversion H; subst. do 6 (split; [reflexivity|]).
    split; [reflexivity | discriminate].
Qed.

Lemma pickup_powerup_spec now g b g' :
  pickup_powerup now g = Some (b, g') ->
  fixtures g' = fixtures g /\
  food g' = food g /\ special_food g' = special_food g /\
  special_spawned_at g' = special_spawned_at g /\
  last_special_check g' = last_special_check g /\
  level g' = level g /\
  (score g' = score g \/ score g' = score g + 3) /\
  (forall p, In p (powerups g') -> In p (powerups g)).
Proof.
  unfold pickup_powerup. destruct (head_of (snake g)) as [h|]; [|discriminate].
  pose proof (pop_first_hit_spec (cell_rect h) (powerups g)) as Hp.
  destruct (pop_first_hit (cell_rect h) (powerups g)) as [[p l]|];
    intros H; inversion H; subst.
  - destruct Hp as (l1 & l2 & Hl & -> & _).
    assert (Hin : forall q, In q (l1 ++ l2) -> In q (powerups g)).
    { intros q Hq. rewrite Hl. apply in_app_or in Hq. apply in_or_app.
      destruct Hq; [left | right; right]; assumption. }
    unfold apply_power. destruct (kind p); fields;
      do 6 (split; [reflexivity|]); (split; [auto | exact Hin]).
  - do 6 (split; [reflexivity|]). split; [left; reflexivity | auto].
Qed.

(** The second half of a step, case by case. *)
Lemma resolve_effect now c g ds hit out rest :
  resolve now c g ds = Done (hit, out) rest ->
  check_collisions g = Some hit /\
  match out with
  | Continue g' =>
      update now (if hit then reset_after_hit g else g) ds = Done g' rest /\
      (hit = true -> 1 < lives g)
  | Restarted over fresh =>
      hit = true /\ lives g <= 1 /\
      over = set_high (Z.max (high g) (score g)) (reset_after_hit g) /\
      c = PressR /\ Game_init now ds = Done fresh rest
  | Stopped over =>
      hit = true /\ lives g <= 1 /\
      over = set_high (Z.max (high g) (score g)) (reset_after_hit g) /\
      c = PressQ /\ rest = ds
  | Exited over =>
      hit = true /\ lives g <= 1 /\
      over = set_high (Z.max (high g) (score g)) (reset_after_hit g) /\
      c = CloseWindow /\ rest = ds
  end.
Proof.
  unfold resolve. intros H. bind_inv H. lift_inv Hm.
  destruct a.
  - destruct (Z.leb_spec (lives (reset_after_hit g)) 0) as [Hl | Hl].
    + assert (Hl' : lives g <= 1) by (fields; lia).
      destruct c.
      * bind_inv H. ret_inv H. split; [exact Hm|].
        split; [reflexivity|]. split; [exact Hl'|]. split; [reflexivity|].
        split; [reflexivity | exact Hm0].
      * ret_inv H. split; [exact Hm|]. repeat split. exact Hl'.
      * ret_inv H. split; [exact Hm|]. repeat split. exact Hl'.
    + assert (Hl' : 1 < lives g) by (fields; lia).
      bind_inv H. ret_inv H. split; [exact Hm|].
      split; [exact Hm0 | intros _; exact Hl'].
  - bind_inv H. ret_inv H. split; [exact Hm|].
    split; [exact Hm0 | discriminate].
Qed.

(** The first half of a step plus [trim_tail], field by field. *)
Lemma sim_step_effect now c g ds r rest :
  sim_step now c g ds = Done r rest ->
  exists h g2 ds2,
    next_head g = Some h /\
    snake g2
    = (if ate r || ate_special r then snake g else tl (snake g)) ++ [h] /\
    heading r = dir g /\ committed r = next_dir g /\
    dir g2 = next_dir g /\ next_dir g2 = next_dir g /\
    lives g2 = lives g /\ high g2 = high g /\ paused g2 = paused g /\
    static_obstacles g2 = static_obstacles g /\
    moving_obstacles g2 = moving_obstacles g /\
    ate r = cell_eqb h (food g) /\
    (ate_special r = true -> special_food g = Some h) /\
    (exists bonus, (bonus = 0 \/ bonus = 3) /\
       score g2 = score g + (if ate r then 1 else 0)
                  + (if ate_special r then SPECIAL_FOOD_VALUE else 0) + bonus) /\
    level g2
    = (if ate r || ate_special r
       then 1 + (score g + (if ate r then 1 else 0)
                 + (if ate_special r then SPECIAL_FOOD_VALUE else 0))
                / LEVEL_UP_EVERY
       else level g) /\
    (if ate r
     then playfield (food g2) /\ ~ In (food g2) (snake g ++ [h]) /\
          hits_static (static_obstacles g) (food g2) = false
     else food g2 = food g) /\
    (forall x, special_food g2 = Some x -> special_food g = Some x) /\
    special_spawned_at g2 = special_spawned_at g /\
    last_special_check g2 = last_special_check g /\
    (forall p, In p (powerups g2) ->
       In p (powerups g) \/
       (playfield (pos p) /\ spawn_time p = now)) /\
    check_collisions g2 = Some (collided r) /\
    resolve now c g2 ds2 = Done (collided r, outcome r) rest.
Proof.
  unfold sim_step. intros H.
  bind_as H p d1 Hadv. unfold advance in Hadv.
  bind_as Hadv a1 dm Hm1. lift_inv Hm1.
  bind_as Hadv q dm1 Hm0. destruct q as [a ga].
  bind_as Hadv q dm2 Hm2. lift_inv Hm2. destruct q as [s gs].
  bind_as Hadv q dm3 Hm3. lift_inv Hm3. destruct q as [b gp].
  ret_inv Hadv. cbv beta iota in H.
  bind_as H a0 d2 Hm4. lift_inv Hm4.
  bind_as H q ds2 Hr. destruct q as [hit out].
  ret_inv H. cbn [ate ate_special collided outcome heading committed].
  destruct (move_snake_spec _ _ Hm1) as (h & Hh & Hmo & Hob).
  unfold motion in Hmo. injection Hmo as M1 M2 M3.
  assert (Hmv : lives a1 = lives g /\ high a1 = high g /\
                paused a1 = paused g /\
                static_obstacles a1 = static_obstacles g /\
                moving_obstacles a1 = moving_obstacles g /\
                score a1 = score g /\ level a1 = level g /\
                food a1 = food g /\ special_food a1 = special_food g /\
                special_spawned_at a1 = special_spawned_at g /\
                last_special_check a1 = last_special_check g /\
                powerups a1 = powerups g).
  { unfold move_snake in Hm1. fields.
    destruct (head_of (snake g)) as [[hx hy]|]; [|discriminate].
    injection Hm1 as <-. repeat split. }
  destruct Hmv as (V1 & V2 & V3 & V4 & V5 & V6 & V7 & V8 & V9 & V10 & V11 & V12).
  destruct (eat_food_spec _ _ _ _ _ _ Hm0)
    as (Fa & _ & Sa & SSa & LCa & h1 & Hh1 & Ea & Hno & Hyes).
  unfold fixtures in Fa. injection Fa as A1 A2 A3 A4 A5 A6 A7 A8.
  destruct (eat_special_food_spec _ _ _ Hm2)
    as (Fs & _ & Fds & Ps & SSs & LCs & Sno & Syes).
  unfold fixtures in Fs. injection Fs as S1 S2 S3 S4 S5 S6 S7 S8.
  destruct (pickup_powerup_spec _ _ _ _ Hm3)
    as (Fp & Fdp & Sp & SSp & LCp & Lp & Scp & Pp).
  unfold fixtures in Fp. injection Fp as P1 P2 P3 P4 P5 P6 P7 P8.
  assert (Hh1' : h1 = h).
  { rewrite M1, head_of_snoc in Hh1. congruence. }
  subst h1.
  assert (Hsn : snake gp = snake g ++ [h]) by congruence.
  destruct (trim_tail_spec _ _ _ _ _ Hsn (next_head_nonempty _ _ Hh) Hm4)
    as (Hs2 & Hd2 & Hn2 & Hob2).
  unfold obstacles in Hob2. injection Hob2 as O1 O2.
  assert (Htr : lives a0 = lives gp /\ high a0 = high gp /\
                paused a0 = paused gp /\ score a0 = score gp /\
                level a0 = level gp /\ food a0 = food gp /\
                special_food a0 = special_food gp /\
                special_spawned_at a0 = special_spawned_at gp /\
                last_special_check a0 = last_special_check gp /\
                powerups a0 = powerups gp).
  { unfold trim_tail in Hm4. destruct (negb (a || s)).
    - destruct (snake gp); [discriminate|]. injection Hm4 as <-. repeat split.
    - injection Hm4 as <-. repeat split. }
  destruct Htr as (T1 & T2 & T3 & T4 & T5 & T6 & T7 & T8 & T9 & T10).
  exists h, a0, d1.
  split; [exact Hh|]. split; [exact Hs2|].
  split; [reflexivity|]. split; [congruence|].
  split; [congruence|]. split; [congruence|].
  split; [congruence|]. split; [congruence|]. split; [congruence|].
  split; [congruence|]. split; [congruence|].
  split; [rewrite Ea; congruence|].
  split.
  { intros Hs. destruct (Syes Hs) as (_ & _ & _ & hs & Hhs & Hsf).
    assert (hs = h).
    { rewrite A3, M1, head_of_snoc in Hhs. congruence. }
    subst hs. congruence. }
  split.
  { destruct Scp as [Sc | Sc]; [exists 0 | exists 3];
      (split; [auto|]); rewrite T4, Sc;
      destruct a, s;
      try (destruct (Hyes eq_refl) as (Y1 & _));
      try (destruct (Hno eq_refl) as (Y1 & _); subst ga);
      try (destruct (Syes eq_refl) as (Z1 & _));
      try (rewrite (Sno eq_refl));
      unfold SPECIAL_FOOD_VALUE in *; lia. }
  split.
  { rewrite T5, Lp.
    destruct a, s; cbn [orb];
      try (destruct (Hyes eq_refl) as (Y1 & Y2 & _));
      try (destruct (Hno eq_refl) as (Y1 & _); subst ga);
      try (destruct (Syes eq_refl) as (Z1 & Z2 & _));
      try (rewrite (Sno eq_refl));
      unfold SPECIAL_FOOD_VALUE in *.
    - rewrite Z2, Y1. f_equal. f_equal. lia.
    - rewrite Y2, V6. f_equal. f_equal. lia.
    - rewrite Z2, V6. f_equal. f_equal. lia.
    - exact V7. }
  split.
  { rewrite T6, Fdp, Fds. destruct a.
    - destruct (Hyes eq_refl) as (_ & _ & Y3 & Y4 & Y5 & _).
      split; [exact Y3|]. split; [rewrite <- M1; exact Y4|].
      rewrite <- V4. exact Y5.
    - destruct (Hno eq_refl) as (-> & _). exact V8. }
  split.
  { intros x Hx. rewrite T7, Sp in Hx.
    destruct s.
    - destruct (Syes eq_refl) as (_ & _ & Z3 & _). congruence.
    - rewrite (Sno eq_refl) in Hx. congruence. }
  split; [congruence|]. split; [congruence|].
  split.
  { intros p Hp. rewrite T10 in Hp. apply Pp in Hp. rewrite Ps in Hp.
    destruct a.
    - destruct (Hyes eq_refl) as (_ & _ & _ & _ & _ & [Hpw | (q & Hpw & Hq & Ht & _)]).
      + left. congruence.
      + rewrite Hpw in Hp. apply in_app_or in Hp.
        destruct Hp as [Hp | [<- | []]]; [left; congruence | right; auto].
    - destruct (Hno eq_refl) as (-> & _). left. congruence. }
  destruct (resolve_effect _ _ _ _ _ _ _ Hr) as (Hc & _).
  split; [exact Hc | exact Hr].
Qed.

(** X13. The books of one simulation step.  The score grows by 1 for food,
    by [SPECIAL_FOOD_VALUE] for special food and by 0 or 3 for a power-up,
    and by nothing else; the level is recomputed exactly when something was
    eaten, from the score before the power-up's bonus.  A life is lost
    exactly on a collision.  The game goes on unless the collision takes the
    last life; then the finished game records [max(high, score)] and a
    restart begins again at score 0, level 1, [LIVES_START] lives,
    [high = 0]. *)
Theorem sim_step_accounting now c g ds r rest :
  sim_step now c g ds = Done r rest ->
  exists bonus, (bonus = 0 \/ bonus = 3) /\
  let eaten := (if ate r then 1 else 0)
               + (if ate_special r then SPECIAL_FOOD_VALUE else 0) in
  match outcome r with
  | Continue g' =>
      score g' = score g + eaten + bonus /\
      level g' = (if ate r || ate_special r
                  then 1 + (score g + eaten) / LEVEL_UP_EVERY
                  else level g) /\
      lives g' = lives g - (if collided r then 1 else 0) /\
      (collided r = true -> 1 < lives g) /\
      high g' = high g
  | Restarted over fresh =>
      collided r = true /\ lives g <= 1 /\ c = PressR /\
      score over = score g + eaten + bonus /\
      high over = Z.max (high g) (score over) /\
      lives over = lives g - 1 /\
      score fresh = 0 /\ level fresh = 1 /\
      lives fresh = LIVES_START /\ high fresh = 0
  | Stopped over | Exited over =>
      collided r = true /\ lives g <= 1 /\ c <> PressR /\
      score over = score g + eaten + bonus /\
      high over = Z.max (high g) (score over) /\
      lives over = lives g - 1
  end.
Proof.
  intros H.
  destruct (sim_step_effect _ _ _ _ _ _ H)
    as (h & g2 & ds2 & _ & _ & _ & _ & _ & _ & Hl & Hh & _ & _ & _ & _ & _
        & (bonus & Hb & Hs) & Hlv & _ & _ & _ & _ & _ & _ & Hr).
  exists bonus. split; [exact Hb|]. cbv zeta.
  destruct (resolve_effect _ _ _ _ _ _ _ Hr) as (_ & Ho).
  destruct (outcome r) as [g' | over fresh | over | over].
  - destruct Ho as (Hu & Hlast).
    destruct (update_spec _ _ _ _ _ Hu) as (_ & Hbk & _).
    unfold books in Hbk. injection Hbk as B1 B2 B3 B4 _ _ _ _.
    destruct (ate r), (ate_special r), (collided r); fields;
      cbn [orb] in *; unfold SPECIAL_FOOD_VALUE in *;
      (split; [lia|]);
      (split; [rewrite B2, Hlv; try reflexivity; f_equal; f_equal; lia|]);
      (split; [lia|]);
      (split; [try discriminate; intros E; specialize (Hlast E); lia
              | congruence]).
  - destruct Ho as (Hc & Hle & -> & -> & Hi).
    apply reset_all_spec in Hi. destruct Hi as (_ & F1 & F2 & F3 & F4).
    fields. unfold SPECIAL_FOOD_VALUE in *.
    destruct (ate r), (ate_special r);
      repeat split; try assumption; try lia.
  - destruct Ho as (Hc & Hle & -> & -> & _). fields.
    unfold SPECIAL_FOOD_VALUE in *.
    destruct (ate r), (ate_special r);
      repeat split; try assumption; try lia; try discriminate.
  - destruct Ho as (Hc & Hle & -> & -> & _). fields.
    unfold SPECIAL_FOOD_VALUE in *.
    destruct (ate r), (ate_special r);
      repeat split; try assumption; try lia; try discriminate.
Qed.

(** The step that eats the food ahead: one point, still level 1. *)
Lemma sim_step_accounting_witness :
  exists r g',
    sim_step 0 PressQ game_food_ahead [5; 5; 50] = Done r [] /\
    outcome r = Continue g' /\ score g' = 1 /\ lives g' = 3.
Proof.
  eexists. eexists. split; [vm_compute; reflexivity|].
  split; [reflexivity|].
  destruct (sim_step_accounting 0 PressQ game_food_ahead [5; 5; 50] _ []
              ltac:(vm_compute; reflexivity)) as (bonus & Hb & Hacc).
  split; reflexivity.
Defined.

(** X14. A collision-free step moves the snake one cell in the committed
    direction: the new head is the old head plus that direction, the tail
    cell is dropped unless something was eaten, and the committed and the
    buffered direction of the game that goes on are both that direction. *)
Theorem sim_step_advances_snake now c g ds r rest :
  sim_step now c g ds = Done r rest ->
  collided r = false ->
  exists hd g',
    head_of (snake g) = Some hd /\
    outcome r = Continue g' /\
    snake g'
    = (if ate r || ate_special r then snake g else tl (snake g))
      ++ [(fst hd + fst (committed r), snd hd + snd (committed r))] /\
    dir g' = committed r /\ next_dir g' = committed r /\
    committed r = next_dir g.
Proof.
  intros H Hc.
  destruct (sim_step_effect _ _ _ _ _ _ H)
    as (h & g2 & ds2 & Hh & Hs & _ & Hcm & Hd & Hn & _ & _ & _ & _ & _ & _
        & _ & _ & _ & _ & _ & _ & _ & _ & _ & Hr).
  destruct (resolve_effect _ _ _ _ _ _ _ Hr) as (_ & Ho).
  rewrite Hc in Ho.
  unfold next_head in Hh. destruct (head_of (snake g)) as [hd|]; [|discriminate].
  injection Hh as <-.
  destruct (outcome r) as [g' | over fresh | over | over];
    try (destruct Ho as (Ho & _); discriminate).
  destruct Ho as (Hu & _).
  destruct (update_spec _ _ _ _ _ Hu) as (Hmo & _).
  unfold motion in Hmo. injection Hmo as M1 M2 M3.
  exists hd, g'. rewrite Hcm.
  split; [reflexivity|]. split; [reflexivity|].
  split; [rewrite M1; exact Hs|]. split; [rewrite M2; exact Hd|].
  split; [rewrite M3; exact Hn | reflexivity].
Qed.

Lemma sim_step_advances_snake_witness :
  exists r g',
    sim_step 0 PressQ game_start [] = Done r [] /\
    outcome r = Continue g' /\
    snake g' = [(300, 200); (300, 180)].
Proof.
  eexists. eexists. split; [vm_compute; reflexivity|].
  split; [reflexivity|].
  destruct (sim_step_advances_snake 0 PressQ game_start [] _ []
              ltac:(vm_compute; reflexivity) eq_refl)
    as (hd & g' & Hhd & Ho & Hs & _).
  injection Hhd as <-. injection Ho as <-. exact Hs.
Defined.

(** X15. Food stays out from under the snake: if the food is on no segment
    before a collision-free step, it is on none after it, whether the step
    ate it (then the new food is a different cell) or not. *)
Theorem food_stays_off_snake now c g ds r rest g' :
  sim_step now c g ds = Done r rest ->
  collided r = false ->
  outcome r = Continue g' ->
  ~ In (food g) (snake g) ->
  ~ In (food g') (snake g') /\
  (ate r = true -> food g' <> food g) /\
  (ate r = false -> food g' = food g).
Proof.
  intros H Hc Hout Hoff.
  destruct (sim_step_effect _ _ _ _ _ _ H)
    as (h & g2 & ds2 & Hh & Hs & _ & _ & _ & _ & _ & _ & _ & _ & _ & Ha
        & _ & _ & _ & Hf & _ & _ & _ & _ & _ & Hr).
  destruct (resolve_effect _ _ _ _ _ _ _ Hr) as (_ & Ho).
  rewrite Hout, Hc in Ho. destruct Ho as (Hu & _).
  destruct (update_spec _ _ _ _ _ Hu) as (Hmo & Hbk & _).
  unfold motion in Hmo. injection Hmo as M1 _ _.
  unfold books in Hbk. injection Hbk as _ _ _ _ _ B6 _ _.
  rewrite M1, B6, Hs.
  assert (Hsub : forall x,
             In x ((if ate r || ate_special r then snake g
                    else tl (snake g)) ++ [h]) ->
             In x (snake g ++ [h])).
  { intros x Hx. apply in_app_or in Hx. apply in_or_app.
    destruct Hx as [Hx | Hx]; [left | right; exact Hx].
    destruct (ate r || ate_special r); [exact Hx|].
    destruct (snake g); [exact Hx | right; exact Hx]. }
  destruct (ate r) eqn:Ea.
  - destruct Hf as (_ & Hnew & _).
    split; [intros Hin; apply Hnew, Hsub, Hin|].
    split; [|discriminate]. intros _ Heq.
    symmetry in Ha. apply cell_eqb_eq in Ha.
    apply Hnew. rewrite Heq, <- Ha. apply in_or_app. right. left. reflexivity.
  - split; [|split; [discriminate | intros _; exact Hf]].
    rewrite Hf. intros Hin. apply Hsub in Hin. apply in_app_or in Hin.
    destruct Hin as [Hin | [E | []]]; [exact (Hoff Hin)|].
    rewrite <- E, cell_eqb_refl in Ha. discriminate.
Qed.

Lemma food_stays_off_snake_witness :
  exists r g',
    sim_step 0 PressQ game_food_ahead [5; 5; 50] = Done r [] /\
    outcome r = Continue g' /\
    ~ In (food g') (snake g') /\ food g' <> food game_food_ahead.
Proof.
  eexists. eexists. split; [vm_compute; reflexivity|].
  split; [reflexivity|].
  destruct (food_stays_off_snake 0 PressQ game_food_ahead [5; 5; 50] _ [] _
              ltac:(vm_compute; reflexivity) eq_refl eq_refl)
    as (Hoff & Hnew & _).
  - simpl. intros [E | [E | []]]; discriminate.
  - split; [exact Hoff | apply Hnew; reflexivity].
Defined.

(** ** Invariants of a session *)

Lemma handle_input_cases e g :
  handle_input e g = g \/
  (exists d, is_unit_dir d /\ handle_input e g = set_next_dir d g) \/
  handle_input e g = set_paused (negb (paused g)) g.
Proof.
  unfold handle_input. destruct e as [k| |]; [|left; reflexivity..].
  repeat match goal with
         | |- context [if ?b then _ else _] => destruct b
         end;
    try (right; left; eexists; split; [|reflexivity]; unfold is_unit_dir;
         auto; fail).
  destruct k; auto.
Qed.

(** An invariant of new games, of input handling and of the steps that
    hand a game on holds for every game of every session. *)
Lemma session_always (P : Game -> Prop) :
  (forall now ds g rest, Game_init now ds = Done g rest -> P g) ->
  (forall e g, P g -> P (handle_input e g)) ->
  (forall now c g ds r rest g',
      P g -> sim_step now c g ds = Done r rest ->
      continuing (outcome r) = Some g' -> P g') ->
  forall now0 ops ds log rest,
    session now0 ops ds = Done log rest -> always P log.
Proof.
  intros Hinit Hinput Hstep now0 ops ds log rest H.
  unfold session in H. bind_as H g0 d0 Hg. apply Hinit in Hg.
  revert g0 d0 log rest Hg H.
  induction ops as [|op ops IH]; intros g d log rest Hg H.
  - simpl in H. ret_inv H. intros r g' [].
  - destruct op as [e | now c]; simpl in H.
    + apply (IH _ _ _ _ (Hinput e g Hg) H).
    + bind_as H r d1 Hs.
      destruct (outcome r) as [g1 | over g1 | over | over] eqn:Eo.
      * bind_as H log' d2 Hrun. ret_inv H.
        assert (Hg1 : P g1) by (apply (Hstep _ _ _ _ _ _ g1 Hg Hs); rewrite Eo;
                          reflexivity).
        intros r' g' [<- | Hin] Hc.
        -- rewrite Eo in Hc. injection Hc as <-. assumption.
        -- apply (IH _ _ _ _ Hg1 Hrun r' g' Hin Hc).
      * bind_as H log' d2 Hrun. ret_inv H.
        assert (Hg1 : P g1) by (apply (Hstep _ _ _ _ _ _ g1 Hg Hs); rewrite Eo;
                          reflexivity).
        intros r' g' [<- | Hin] Hc.
        -- rewrite Eo in Hc. injection Hc as <-. assumption.
        -- apply (IH _ _ _ _ Hg1 Hrun r' g' Hin Hc).
      * ret_inv H. intros r' g' [<- | []] Hc. rewrite Eo in Hc. discriminate.
      * ret_inv H. intros r' g' [<- | []] Hc. rewrite Eo in Hc. discriminate.
Qed.

(** *** The obstacle field *)

Lemma moving_made_in_lane m :
  moving_made m -> in_lane m /\ (Z.abs (dx m) = 2 \/ Z.abs (dx m) = 3).
Proof.
  unfold moving_made, in_lane, WIDTH, GRID.
  intros (Hx & _ & _ & Hw & _ & Hd). lia.
Qed.

Lemma field_ok_init now ds g rest :
  Game_init now ds = Done g rest -> field_ok g.
Proof.
  intros H. destruct (reset_all_obstacles _ _ _ _ H)
    as (H1 & H2 & H3 & H4 & _).
  unfold field_ok. repeat (split; [assumption|]). split.
  - eapply Forall_impl; [|exact H4]. intros m Hm.
    apply (proj1 (moving_made_in_lane m Hm)).
  - eapply Forall_impl; [|exact H4]. intros m Hm.
    apply (proj2 (moving_made_in_lane m Hm)).
Qed.

Lemma field_ok_moved mobs :
  Forall in_lane mobs ->
  Forall (fun m => Z.abs (dx m) = 2 \/ Z.abs (dx m) = 3) mobs ->
  Forall in_lane (map MovingObstacle_update mobs) /\
  Forall (fun m => Z.abs (dx m) = 2 \/ Z.abs (dx m) = 3)
         (map MovingObstacle_update mobs).
Proof.
  intros Hl Hd. split; apply Forall_forall; intros m Hin;
    apply in_map_iff in Hin; destruct Hin as (m0 & <- & Hin0);
    pose proof (proj1 (Forall_forall _ _) Hl m0 Hin0) as L;
    pose proof (proj1 (Forall_forall _ _) Hd m0 Hin0) as D;
    destruct (MovingObstacle_update_lane m0 L) as (L' & D' & _).
  - exact L'.
  - rewrite D'. exact D.
Qed.

Lemma field_ok_step now c g ds r rest g' :
  field_ok g -> sim_step now c g ds = Done r rest ->
  continuing (outcome r) = Some g' -> field_ok g'.
Proof.
  intros (F1 & F2 & F3 & F4 & F5) H Hc.
  destruct (sim_step_effect _ _ _ _ _ _ H)
    as (h & g2 & ds2 & _ & _ & _ & _ & _ & _ & _ & _ & _ & Hst & Hmv & _ & _
        & _ & _ & _ & _ & _ & _ & _ & _ & Hr).
  destruct (resolve_effect _ _ _ _ _ _ _ Hr) as (_ & Ho).
  destruct (outcome r) as [g1 | over fresh | over | over];
    simpl in Hc; try discriminate; injection Hc as <-.
  - destruct Ho as (Hu & _).
    destruct (update_spec _ _ _ _ _ Hu) as (_ & Hbk & Hm & _).
    unfold books in Hbk. injection Hbk as _ _ _ _ B5 _ _ _.
    assert (S : static_obstacles g1 = static_obstacles g)
      by (destruct (collided r); fields; congruence).
    assert (M : moving_obstacles g1
                = map MovingObstacle_update (moving_obstacles g))
      by (destruct (collided r); fields; congruence).
    destruct (field_ok_moved _ F4 F5) as [L D].
    unfold field_ok. rewrite S, M, length_map. auto.
  - destruct Ho as (_ & _ & _ & _ & Hi). apply (field_ok_init _ _ _ _ Hi).
Qed.

Lemma field_ok_input e g : field_ok g -> field_ok (handle_input e g).
Proof.
  intros H. destruct (handle_input_cases e g) as [-> | [(d & _ & ->) | ->]];
    exact H.
Qed.

(** X16. In every session the obstacle field keeps its shape: each game a
    step hands on has six well-placed static obstacles and two moving
    ones, each moving one in its lane (within less than a stride of the
    window's edges, heading back when at an edge) with speed 2 or 3. *)
Theorem session_keeps_field now0 ops ds log rest :
  session now0 ops ds = Done log rest ->
  always field_ok log.
Proof.
  apply (session_always field_ok).
  - exact field_ok_init.
  - exact field_ok_input.
  - intros now c g d r rs g'. apply field_ok_step.
Qed.

Lemma session_keeps_field_witness :
  exists log rest,
    session 0 ops_into_bottom_wall start_draws = Done log rest /\
    always field_ok log.
Proof.
  eexists. eexists. split; [vm_compute; reflexivity|].
  apply (session_keeps_field 0 ops_into_bottom_wall start_draws _ []).
  vm_compute. reflexivity.
Defined.

(** *** The books *)

Lemma ledger_ok_init now ds g rest :
  Game_init now ds = Done g rest -> ledger_ok g.
Proof.
  intros H. apply reset_all_spec in H.
  destruct H as (_ & Hs & Hh & Hl & Hv). unfold ledger_ok.
  rewrite Hs, Hh, Hl, Hv. unfold LIVES_START. repeat split; try lia.
  vm_compute. discriminate.
Qed.

Lemma ledger_ok_input e g : ledger_ok g -> ledger_ok (handle_input e g).
Proof.
  intros H. destruct (handle_input_cases e g) as [-> | [(d & _ & ->) | ->]];
    exact H.
Qed.

Lemma ledger_ok_step now c g ds r rest g' :
  ledger_ok g -> sim_step now c g ds = Done r rest ->
  continuing (outcome r) = Some g' ->
  ledger_ok g' /\
  (outcome r = Continue g' -> score g <= score g' /\ level g <= level g').
Proof.
  intros (L1 & (L2 & L3) & (L4 & L5) & L6) H Hc.
  destruct (sim_step_effect _ _ _ _ _ _ H)
    as (h & g2 & ds2 & _ & _ & _ & _ & _ & _ & Hl & Hh & _ & _ & _ & _ & _
        & (bonus & Hb & Hs) & Hlv & _ & _ & _ & _ & _ & _ & Hr).
  destruct (resolve_effect _ _ _ _ _ _ _ Hr) as (_ & Ho).
  destruct (outcome r) as [g1 | over fresh | over | over];
    simpl in Hc; try discriminate; injection Hc as <-.
  - destruct Ho as (Hu & Hlast).
    destruct (update_spec _ _ _ _ _ Hu) as (_ & Hbk & _).
    unfold books in Hbk. injection Hbk as B1 B2 B3 B4 _ _ _ _.
    assert (S : 0 <= score g <= score g1 /\
                level g <= level g1 <= 1 + score g1 / LEVEL_UP_EVERY).
    { assert (S1 : score g1 = score g2)
        by (destruct (collided r); fields; congruence).
      assert (S2 : level g1 = level g2)
        by (destruct (collided r); fields; congruence).
      rewrite S1, S2, Hlv, Hs.
      unfold LEVEL_UP_EVERY, SPECIAL_FOOD_VALUE in *.
      destruct (ate r), (ate_special r); cbn [orb];
        Z.to_euclidean_division_equations; lia. }
    assert (V : 1 <= lives g1 <= LIVES_START /\ high g1 = 0).
    { destruct (collided r); fields.
      - specialize (Hlast eq_refl). split; [lia | congruence].
      - split; [lia | congruence]. }
    unfold ledger_ok. split; [|intros _; lia].
    repeat split; lia.
  - destruct Ho as (_ & _ & _ & _ & Hi).
    split; [apply (ledger_ok_init _ _ _ _ Hi) | discriminate].
Qed.

(** X17. In every session the books of a game in play are sound: the
    score is never negative, the level is at least 1 and never ahead of
    [1 + score // LEVEL_UP_EVERY] (it can lag behind it after a Bonus),
    between 1 and [LIVES_START] lives are left, and [high] is still 0, so
    that the scoreboard's [max(high, score)] is the current score. *)
Theorem session_keeps_books now0 ops ds log rest :
  session now0 ops ds = Done log rest ->
  always (fun g => 0 <= score g /\
                   1 <= level g <= 1 + score g / LEVEL_UP_EVERY /\
                   1 <= lives g <= LIVES_START /\
                   high g = 0 /\ Z.max (high g) (score g) = score g) log.
Proof.
  intros H r g Hin Hc.
  pose proof (session_always ledger_ok ledger_ok_init ledger_ok_input
                (fun now c g d r rs g' Hg Hs Hc' =>
                   proj1 (ledger_ok_step now c g d r rs g' Hg Hs Hc'))
                _ _ _ _ _ H r g Hin Hc) as (L1 & L2 & L3 & L4).
  repeat split; try tauto. rewrite L4. lia.
Qed.

Lemma session_keeps_books_witness :
  exists log rest,
    session 0 ops_into_bottom_wall start_draws = Done log rest /\
    always (fun g => 0 <= score g /\
                     1 <= level g <= 1 + score g / LEVEL_UP_EVERY /\
                     1 <= lives g <= LIVES_START /\
                     high g = 0 /\ Z.max (high g) (score g) = score g) log.
Proof.
  eexists. eexists. split; [vm_compute; reflexivity|].
  apply (session_keeps_books 0 ops_into_bottom_wall start_draws _ []).
  vm_compute. reflexivity.
Defined.

(** X18. Within a game, score and level never go down: a step that hands
    the same game on (no restart) leaves score and level at least where
    they were, provided the level was not ahead of the score before. *)
Theorem score_and_level_never_drop now c g ds r rest g' :
  0 <= score g ->
  level g <= 1 + score g / LEVEL_UP_EVERY ->
  sim_step now c g ds = Done r rest ->
  outcome r = Continue g' ->
  score g <= score g' /\ level g <= level g' /\
  level g' <= 1 + score g' / LEVEL_UP_EVERY.
Proof.
  intros L1 L3 H Hout.
  destruct (sim_step_effect _ _ _ _ _ _ H)
    as (h & g2 & ds2 & _ & _ & _ & _ & _ & _ & _ & _ & _ & _ & _ & _ & _
        & (bonus & Hb & Hs) & Hlv & _ & _ & _ & _ & _ & _ & Hr).
  destruct (resolve_effect _ _ _ _ _ _ _ Hr) as (_ & Ho).
  rewrite Hout in Ho. destruct Ho as (Hu & _).
  destruct (update_spec _ _ _ _ _ Hu) as (_ & Hbk & _).
  unfold books in Hbk. injection Hbk as B1 B2 _ _ _ _ _ _.
  assert (S1 : score g' = score g2)
    by (destruct (collided r); fields; congruence).
  assert (S2 : level g' = level g2)
    by (destruct (collided r); fields; congruence).
  rewrite S1, S2, Hlv, Hs.
  unfold LEVEL_UP_EVERY, SPECIAL_FOOD_VALUE in *.
  destruct (ate r), (ate_special r); cbn [orb];
    Z.to_euclidean_division_equations; lia.
Qed.

Lemma score_and_level_never_drop_witness :
  exists r g',
    sim_step 100 PressQ game_before_bonus [] = Done r [] /\
    outcome r = Continue g' /\
    score game_before_bonus <= score g' /\
    level game_before_bonus <= level g' /\
    level g' <= 1 + score g' / LEVEL_UP_EVERY.
Proof.
  eexists. eexists. split; [vm_compute; reflexivity|].
  split; [reflexivity|].
  eapply (score_and_level_never_drop 100 PressQ game_before_bonus []);
    [vm_compute; discriminate | vm_compute; discriminate
    | vm_compute; reflexivity | reflexivity].
Defined.

(** *** The snake *)

Lemma spawn_snake_ok statics :
  Forall static_ok statics ->
  (2 <= length spawn_snake)%nat /\ NoDup spawn_snake /\
  Forall in_field spawn_snake /\
  Forall (fun c => hits_static statics c = false) spawn_snake.
Proof.
  intros Hs. split; [apply le_n|]. split.
  { constructor; [intros [E | []]; discriminate|].
    constructor; [intros []| constructor]. }
  split.
  { repeat constructor; vm_compute; discriminate. }
  repeat constructor; apply hits_static_corridor; try exact Hs;
    cbv; split; discriminate.
Qed.

Lemma hits_wall_in_field c : hits_wall c = false -> in_field c.
Proof.
  unfold hits_wall, in_field. rewrite !orb_false_iff.
  intros [[[H1 H2] H3] H4].
  apply Z.ltb_ge in H1. apply Z.leb_gt in H2.
  apply Z.ltb_ge in H3. apply Z.leb_gt in H4. lia.
Qed.

Lemma NoDup_tl {A} (l : list A) : NoDup l -> NoDup (tl l).
Proof. intros H. destruct H; [constructor | assumption]. Qed.

Lemma Forall_tl {A} (P : A -> Prop) l : Forall P l -> Forall P (tl l).
Proof. intros H. destruct H; [constructor | assumption]. Qed.

Lemma snake_ok_step now c g ds r rest g' :
  field_ok g -> snake_ok g -> sim_step now c g ds = Done r rest ->
  continuing (outcome r) = Some g' -> snake_ok g'.
Proof.
  intros (_ & F2 & _) (K1 & K2 & K3 & K4) H Hc.
  destruct (sim_step_effect _ _ _ _ _ _ H)
    as (h & g2 & ds2 & Hh & Hs & _ & _ & _ & _ & _ & _ & _ & Hst & Hmv & _ & _
        & _ & _ & _ & _ & _ & _ & _ & Hcc & Hr).
  destruct (resolve_effect _ _ _ _ _ _ _ Hr) as (_ & Ho).
  destruct (outcome r) as [g1 | over fresh | over | over];
    simpl in Hc; try discriminate; injection Hc as <-.
  - destruct Ho as (Hu & _).
    destruct (update_spec _ _ _ _ _ Hu) as (Hmo & Hbk & _).
    unfold motion in Hmo. injection Hmo as M1 _ _.
    unfold books in Hbk. injection Hbk as _ _ _ _ B5 _ _ _.
    unfold snake_ok. rewrite M1, B5.
    destruct (collided r); fields.
    + rewrite Hst. apply spawn_snake_ok, F2.
    + rewrite (check_collisions_snoc _ _ _ Hs) in Hcc.
      injection Hcc as Hcc. rewrite !orb_false_iff in Hcc.
      destruct Hcc as [[[W S] T] _].
      assert (Hx : (length (snake g)
                    <= length ((if ate r || ate_special r then snake g
                                else tl (snake g)) ++ [h]))%nat /\
                   NoDup (if ate r || ate_special r then snake g
                          else tl (snake g)) /\
                   Forall in_field (if ate r || ate_special r then snake g
                                    else tl (snake g)) /\
                   Forall (fun c0 => hits_static (static_obstacles g) c0 = false)
                          (if ate r || ate_special r then snake g
                           else tl (snake g))).
      { rewrite length_app. destruct (ate r || ate_special r).
        - simpl. split; [lia | auto].
        - split; [destruct (snake g); simpl; lia|].
          split; [apply NoDup_tl, K2|].
          split; [apply Forall_tl, K3 | apply Forall_tl, K4]. }
      destruct Hx as (X1 & X2 & X3 & X4).
      rewrite Hs, Hst. split; [lia|]. split.
      { apply NoDup_app; [exact X2 | constructor; [intros []| constructor]|].
        intros x Hx [<- | []]. apply cell_mem_In in Hx. congruence. }
      split.
      { apply Forall_app. split; [exact X3|].
        constructor; [apply hits_wall_in_field, W | constructor]. }
      apply Forall_app. split; [exact X4|].
      constructor; [rewrite <- Hst; exact T | constructor].
  - destruct Ho as (_ & _ & _ & _ & Hi).
    destruct (reset_all_spec _ _ _ _ Hi) as (Hm & _).
    destruct (reset_all_obstacles _ _ _ _ Hi) as (_ & Hso & _).
    unfold motion in Hm. injection Hm as M1 _ _.
    unfold snake_ok. rewrite M1. apply spawn_snake_ok, Hso.
Qed.

Lemma snake_ok_init now ds g rest :
  Game_init now ds = Done g rest -> snake_ok g.
Proof.
  intros Hi.
  destruct (reset_all_spec _ _ _ _ Hi) as (Hm & _).
  destruct (reset_all_obstacles _ _ _ _ Hi) as (_ & Hso & _).
  unfold motion in Hm. injection Hm as M1 _ _.
  unfold snake_ok. rewrite M1. apply spawn_snake_ok, Hso.
Qed.

Lemma snake_ok_input e g : snake_ok g -> snake_ok (handle_input e g).
Proof.
  intros H. destruct (handle_input_cases e g) as [-> | [(d & _ & ->) | ->]];
    exact H.
Qed.

(** X19. In every session the snake of a game in play is well formed: it
    has at least two segments, no two segments share a cell, every segment
    lies inside the window below the top band, and none lies under a
    static obstacle. *)
Theorem session_keeps_snake now0 ops ds log rest :
  session now0 ops ds = Done log rest ->
  always (fun g =>
            (2 <= length (snake g))%nat /\ NoDup (snake g) /\
            Forall in_field (snake g) /\
            Forall (fun c => hits_static (static_obstacles g) c = false)
                   (snake g)) log.
Proof.
  intros H r g Hin Hc.
  apply (session_always (fun g => field_ok g /\ snake_ok g)) with (r := r)
    (g := g) in H; [apply H | | | | exact Hin | exact Hc].
  - intros now ds' g0 rs Hi.
    split; [apply (field_ok_init _ _ _ _ Hi) | apply (snake_ok_init _ _ _ _ Hi)].
  - intros e g0 [Hf Hs].
    split; [apply field_ok_input, Hf | apply snake_ok_input, Hs].
  - intros now c g0 d r0 rs g' [Hf Hs] Hstep Hcont.
    split; [apply (field_ok_step _ _ _ _ _ _ _ Hf Hstep Hcont)
           | apply (snake_ok_step _ _ _ _ _ _ _ Hf Hs Hstep Hcont)].
Qed.

Lemma session_keeps_snake_witness :
  exists log rest,
    session 0 ops_into_bottom_wall start_draws = Done log rest /\
    always (fun g =>
              (2 <= length (snake g))%nat /\ NoDup (snake g) /\
              Forall in_field (snake g) /\
              Forall (fun c => hits_static (static_obstacles g) c = false)
                     (snake g)) log.
Proof.
  eexists. eexists. split; [vm_compute; reflexivity|].
  apply (session_keeps_snake 0 ops_into_bottom_wall start_draws _ []).
  vm_compute. reflexivity.
Defined.

Lemma head_of_cons2 a b t : head_of (a :: b :: t) = head_of (b :: t).
Proof. reflexivity. Qed.

Lemma head_of_tl l a : head_of (tl l) = Some a -> head_of l = Some a.
Proof.
  destruct l as [|x [|y t]]; try discriminate. simpl tl.
  rewrite head_of_cons2. auto.
Qed.

Lemma connected_tl l : connected l -> connected (tl l).
Proof.
  destruct l as [|a [|b t]]; simpl; auto. intros [_ H]. exact H.
Qed.

Lemma connected_snoc l h :
  connected l ->
  (forall a, head_of l = Some a ->
             is_unit_dir (fst h - fst a, snd h - snd a)) ->
  connected (l ++ [h]).
Proof.
  induction l as [|a l IH]; intros Hc Hh; [exact I|].
  destruct l as [|b t].
  - simpl. split; [apply Hh; reflexivity | exact I].
  - destruct Hc as [Hab Hc]. change (connected (a :: (b :: t) ++ [h])).
    simpl. split; [exact Hab|].
    apply IH; [exact Hc|]. intros x Hx. apply Hh.
    rewrite head_of_cons2. exact Hx.
Qed.

Lemma aligned_step a d :
  aligned a -> is_unit_dir d -> aligned (fst a + fst d, snd a + snd d).
Proof.
  unfold aligned, is_unit_dir, UP, DOWN, LEFT, RIGHT, GRID.
  intros [Hx Hy] [-> | [-> | [-> | ->]]]; simpl;
    split; Z.to_euclidean_division_equations; lia.
Qed.

Lemma spawn_snake_on_grid : Forall aligned spawn_snake /\ connected spawn_snake.
Proof.
  split; [repeat constructor|].
  simpl. split; [left; reflexivity | exact I].
Qed.

Lemma snake_on_grid_step now c g ds r rest g' :
  snake_on_grid g -> sim_step now c g ds = Done r rest ->
  continuing (outcome r) = Some g' -> snake_on_grid g'.
Proof.
  intros (Hinv & Ha & Hcn) H Hc.
  destruct (sim_step_dirs _ _ _ _ _ _ Hinv H) as (_ & _ & _ & _ & Hinv').
  destruct (sim_step_effect _ _ _ _ _ _ H)
    as (h & g2 & ds2 & Hh & Hs & _ & _ & _ & _ & _ & _ & _ & _ & _ & _ & _
        & _ & _ & _ & _ & _ & _ & _ & _ & Hr).
  destruct (resolve_effect _ _ _ _ _ _ _ Hr) as (_ & Ho).
  assert (Hg' : g' = game_after (outcome r)).
  { destruct (outcome r); simpl in Hc; try discriminate;
      injection Hc as <-; reflexivity. }
  unfold snake_on_grid. split; [rewrite Hg'; exact Hinv'|].
  destruct (outcome r) as [g1 | over fresh | over | over];
    simpl in Hc; try discriminate; injection Hc as <-.
  - destruct Ho as (Hu & _).
    destruct (update_spec _ _ _ _ _ Hu) as (Hmo & _).
    unfold motion in Hmo. injection Hmo as M1 _ _. rewrite M1.
    destruct (collided r); fields; [apply spawn_snake_on_grid|].
    rewrite Hs. unfold next_head in Hh.
    destruct (head_of (snake g)) as [hd|] eqn:Ehd; [|discriminate].
    injection Hh as <-.
    destruct Hinv as (_ & Hn & _).
    assert (Hhd : aligned hd).
    { apply (proj1 (Forall_forall _ _) Ha). apply head_of_In, Ehd. }
    split.
    + apply Forall_app. split.
      * destruct (ate r || ate_special r); [exact Ha | apply Forall_tl, Ha].
      * constructor; [apply aligned_step; assumption | constructor].
    + apply connected_snoc.
      * destruct (ate r || ate_special r); [exact Hcn | apply connected_tl, Hcn].
      * intros a Hhead.
        assert (a = hd).
        { destruct (ate r || ate_special r);
            [|apply head_of_tl in Hhead]; congruence. }
        subst a. cbn [fst snd].
        replace (fst hd + fst (next_dir g) - fst hd, snd hd + snd (next_dir g) - snd hd)
          with (next_dir g); [exact Hn|].
        destruct (next_dir g) as [nx ny]. cbn [fst snd]. f_equal; lia.
  - destruct Ho as (_ & _ & _ & _ & Hi).
    destruct (reset_all_spec _ _ _ _ Hi) as (Hm & _).
    unfold motion in Hm. injection Hm as M1 _ _. rewrite M1.
    apply spawn_snake_on_grid.
Qed.

Lemma snake_on_grid_init now ds g rest :
  Game_init now ds = Done g rest -> snake_on_grid g.
Proof.
  intros Hi. unfold snake_on_grid.
  split; [apply (Game_init_dir_inv _ _ _ _ Hi)|].
  destruct (reset_all_spec _ _ _ _ Hi) as (Hm & _).
  unfold motion in Hm. injection Hm as M1 _ _. rewrite M1.
  apply spawn_snake_on_grid.
Qed.

Lemma snake_on_grid_input e g :
  snake_on_grid g -> snake_on_grid (handle_input e g).
Proof.
  intros (Hinv & Ha & Hc). unfold snake_on_grid.
  split; [apply handle_input_dir_inv, Hinv|].
  destruct (handle_input_cases e g) as [-> | [(d & _ & ->) | ->]];
    split; assumption.
Qed.

(** X20. In every session the snake of a game in play sits on the grid as
    one connected chain: every segment is grid-aligned, successive
    segments are neighbours one cell apart (up, down, left or right), the
    committed and the buffered direction are unit grid steps and the
    buffered one is never the reverse of the committed one. *)
Theorem session_keeps_snake_on_grid now0 ops ds log rest :
  session now0 ops ds = Done log rest ->
  always (fun g =>
            Forall aligned (snake g) /\ connected (snake g) /\
            is_unit_dir (dir g) /\ is_unit_dir (next_dir g) /\
            next_dir g <> opposite (dir g)) log.
Proof.
  intros H r g Hin Hc.
  pose proof (session_always snake_on_grid snake_on_grid_init
                snake_on_grid_input snake_on_grid_step
                _ _ _ _ _ H r g Hin Hc) as ((D1 & D2 & D3) & A & C).
  auto.
Qed.

Lemma session_keeps_snake_on_grid_witness :
  exists log rest,
    session 0 ops_into_bottom_wall start_draws = Done log rest /\
    always (fun g =>
              Forall aligned (snake g) /\ connected (snake g) /\
              is_unit_dir (dir g) /\ is_unit_dir (next_dir g) /\
              next_dir g <> opposite (dir g)) log.
Proof.
  eexists. eexists. split; [vm_compute; reflexivity|].
  apply (session_keeps_snake_on_grid 0 ops_into_bottom_wall start_draws _ []).
  vm_compute. reflexivity.
Defined.

(** *** Food, special food and power-ups *)

Lemma items_ok_init now ds g rest :
  Game_init now ds = Done g rest -> items_ok g.
Proof.
  intros Hi.
  destruct (reset_all_obstacles _ _ _ _ Hi)
    as (_ & _ & _ & _ & Hf & Hs & Hp & _).
  unfold items_ok. rewrite Hs, Hp.
  split; [exact Hf|]. split; [discriminate | constructor].
Qed.

Lemma items_ok_input e g : items_ok g -> items_ok (handle_input e g).
Proof.
  intros H. destruct (handle_input_cases e g) as [-> | [(d & _ & ->) | ->]];
    exact H.
Qed.

Lemma items_ok_update now g ds g' rest :
  items_ok g -> update now g ds = Done g' rest -> items_ok g'.
Proof.
  intros (I1 & I2 & I3) Hu.
  destruct (update_spec _ _ _ _ _ Hu) as (_ & Hbk & _ & Hp & Hsf).
  unfold books in Hbk. injection Hbk as _ _ _ _ _ B6 _ _.
  unfold items_ok. rewrite B6, Hp. split; [exact I1|]. split.
  - intros x Hx. destruct (special_food g) as [c0|].
    + destruct Hsf as (_ & _ & _ & Hsf). rewrite Hsf in Hx.
      destruct (SPECIAL_FOOD_TTL <? now - special_spawned_at g);
        [discriminate|]. injection Hx as <-. apply I2. reflexivity.
    + destruct (SPECIAL_FOOD_EVERY * 1000 <? now - last_special_check g).
      * destruct Hsf as (_ & [(Hn & _) | (c1 & Hc1 & _ & Hpf & _)]);
          congruence.
      * destruct Hsf as (_ & Hn & _). congruence.
  - apply Forall_forall. intros p Hin. apply filter_In in Hin.
    apply (proj1 (Forall_forall _ _) I3 p (proj1 Hin)).
Qed.

Lemma items_ok_step now c g ds r rest g' :
  items_ok g -> sim_step now c g ds = Done r rest ->
  continuing (outcome r) = Some g' -> items_ok g'.
Proof.
  intros (I1 & I2 & I3) H Hc.
  destruct (sim_step_effect _ _ _ _ _ _ H)
    as (h & g2 & ds2 & _ & _ & _ & _ & _ & _ & _ & _ & _ & _ & _ & _ & _
        & _ & _ & Hf & Hsf & _ & _ & Hp & _ & Hr).
  assert (I : items_ok g2).
  { unfold items_ok. split; [|split].
    - destruct (ate r); [apply Hf | rewrite Hf; exact I1].
    - intros x Hx. apply I2, Hsf, Hx.
    - apply Forall_forall. intros p Hin.
      destruct (Hp p Hin) as [Hold | [Hnew _]]; [|exact Hnew].
      apply (proj1 (Forall_forall _ _) I3 p Hold). }
  destruct (resolve_effect _ _ _ _ _ _ _ Hr) as (_ & Ho).
  destruct (outcome r) as [g1 | over fresh | over | over];
    simpl in Hc; try discriminate; injection Hc as <-.
  - destruct Ho as (Hu & _).
    apply (items_ok_update now (if collided r then reset_after_hit g2 else g2)
             ds2 g1 rest); [|exact Hu].
    destruct (collided r); exact I.
  - destruct Ho as (_ & _ & _ & _ & Hi). apply (items_ok_init _ _ _ _ Hi).
Qed.

(** X21. In every session whatever lies on the field of a game in play
    was put where [spawn_food] puts things: the food, the special food if
    there is one, and every power-up sit on grid cells inside the window
    from the fourth row down, so none of them lies in the wall or the top
    band. *)
Theorem session_keeps_items_in_playfield now0 ops ds log rest :
  session now0 ops ds = Done log rest ->
  always (fun g =>
            playfield (food g) /\ hits_wall (food g) = false /\
            (forall c, special_food g = Some c -> playfield c) /\
            Forall (fun p => playfield (pos p)) (powerups g)) log.
Proof.
  intros H r g Hin Hc.
  pose proof (session_always items_ok items_ok_init items_ok_input
                items_ok_step _ _ _ _ _ H r g Hin Hc) as (I1 & I2 & I3).
  split; [exact I1|]. split; [apply playfield_not_wall, I1|].
  split; assumption.
Qed.

Lemma session_keeps_items_in_playfield_witness :
  exists log rest,
    session 0 ops_into_bottom_wall start_draws = Done log rest /\
    always (fun g =>
              playfield (food g) /\ hits_wall (food g) = false /\
              (forall c, special_food g = Some c -> playfield c) /\
              Forall (fun p => playfield (pos p)) (powerups g)) log.
Proof.
  eexists. eexists. split; [vm_compute; reflexivity|].
  apply (session_keeps_items_in_playfield 0 ops_into_bottom_wall
           start_draws _ []).
  vm_compute. reflexivity.
Defined.

(** ** The game-over screen *)

(** X22. The game-over screen answers with the first deciding event and
    ignores everything else: events that decide nothing may come before it
    in any number, and whatever arrives after it is never looked at.  [R]
    restarts, [Q] and [ESCAPE] leave, closing the window exits. *)
Theorem game_over_screen_first_decides (evs : list Event) (c : Choice) :
  game_over_screen evs = Some c <->
  exists pre e post,
    evs = pre ++ e :: post /\
    Forall (fun x => decisive x = None) pre /\
    decisive e = Some c.
Proof.
  split.
  - induction evs as [|e evs IH]; [discriminate|]. simpl.
    destruct (decisive e) as [c'|] eqn:E.
    + intros H. injection H as ->. exists [], e, evs.
      split; [reflexivity|]. split; [constructor | exact E].
    + intros H. destruct (IH H) as (pre & e' & post & -> & Hpre & He).
      exists (e :: pre), e', post.
      split; [reflexivity|]. split; [constructor; assumption | exact He].
  - intros (pre & e & post & -> & Hpre & He).
    induction Hpre as [|x pre Hx _ IH]; simpl.
    + rewrite He. reflexivity.
    + rewrite Hx. exact IH.
Qed.

Lemma game_over_screen_first_decides_witness :
  game_over_screen [KEYDOWN K_UP; OtherEvent; KEYDOWN K_r; KEYDOWN K_q]
  = Some PressR.
Proof.
  apply (proj2 (game_over_screen_first_decides
                  [KEYDOWN K_UP; OtherEvent; KEYDOWN K_r; KEYDOWN K_q] PressR)).
  exists [KEYDOWN K_UP; OtherEvent], (KEYDOWN K_r), [KEYDOWN K_q].
  split; [reflexivity|]. split; [repeat constructor | reflexivity].
Defined.

(** ** The step rate across levels and effects *)

Lemma current_fps_formula now g :
  1 <= level g ->
  fst (current_fps now g)
  = Z.max 6 (Z.min MAX_FPS
      (((2 * FPS_BASE + 3 * (level g - 1))
        * effect_tenths (effect_in_force now g)) / 20)).
Proof.
  intros Hl. unfold current_fps.
  pose proof (power_multiplier_in_force now g) as Hm.
  destruct (power_multiplier now g) as [m g']. simpl in Hm. subst m.
  cbn [fst]. rewrite py_int_fps_base by exact Hl. reflexivity.
Qed.

Lemma effect_tenths_pos o : 0 < effect_tenths o.
Proof. destruct o as [[| |]|]; simpl; lia. Qed.

(** X23. The game never slows down by levelling up, and effects order the
    rate as one expects: for levels from 1 on, a game whose level is at
    least as high and whose effect multiplier is at least as large has a
    step rate at least as high.  In particular Slow is never faster and
    Speed never slower than no effect at the same level. *)
Theorem current_fps_monotone now1 now2 g1 g2 :
  1 <= level g1 <= level g2 ->
  effect_tenths (effect_in_force now1 g1)
  <= effect_tenths (effect_in_force now2 g2) ->
  fst (current_fps now1 g1) <= fst (current_fps now2 g2).
Proof.
  intros [H1 H12] Ht.
  rewrite (current_fps_formula now1 g1) by exact H1.
  rewrite (current_fps_formula now2 g2) by lia.
  pose proof (effect_tenths_pos (effect_in_force now1 g1)) as P1.
  assert (Hd : ((2 * FPS_BASE + 3 * (level g1 - 1))
                * effect_tenths (effect_in_force now1 g1)) / 20
               <= ((2 * FPS_BASE + 3 * (level g2 - 1))
                   * effect_tenths (effect_in_force now2 g2)) / 20).
  { apply Z.div_le_mono; [lia|]. unfold FPS_BASE.
    apply Z.mul_le_mono_nonneg; lia. }
  unfold MAX_FPS. lia.
Qed.

Lemma current_fps_monotone_witness :
  fst (current_fps 2000 game_with_speed)
  <= fst (current_fps 2000 game_level8_speed).
Proof.
  apply current_fps_monotone; [vm_compute | vm_compute; discriminate].
  split; discriminate.
Defined.

(** ** The collision test, read as a proposition *)

(** X24. [check_collisions] answers true exactly when the head is outside
    the field (outside the window or in the top band), or on an earlier
    segment, or its square meets a static or a moving obstacle; it answers
    false exactly when the head is in the field, on no other segment and
    clear of every obstacle; and it fails (Python's IndexError) exactly on
    an empty snake. *)
Theorem check_collisions_iff (g : Game) :
  (check_collisions g = None <-> snake g = []) /\
  (forall h, head_of (snake g) = Some h ->
     (check_collisions g = Some true <->
      ~ in_field h \/ In h (removelast (snake g)) \/
      (exists o, In o (static_obstacles g) /\
                 colliderect (cell_rect h) o = true) \/
      (exists m, In m (moving_obstacles g) /\
                 colliderect (cell_rect h) (rect m) = true)) /\
     (check_collisions g = Some false <->
      in_field h /\ ~ In h (removelast (snake g)) /\
      (forall o, In o (static_obstacles g) ->
                 colliderect (cell_rect h) o = false) /\
      (forall m, In m (moving_obstacles g) ->
                 colliderect (cell_rect h) (rect m) = false))).
Proof.
  split.
  { unfold check_collisions, head_of. destruct (snake g); split;
      intros H; try reflexivity; discriminate. }
  intros h Hh. unfold check_collisions. rewrite Hh.
  assert (W : hits_wall h = false <-> in_field h).
  { split; [apply hits_wall_in_field|].
    unfold in_field, hits_wall. intros [[A B] [C D]].
    rewrite !orb_false_iff. repeat split;
      [apply Z.ltb_ge | apply Z.leb_gt | apply Z.ltb_ge | apply Z.leb_gt];
      assumption. }
  assert (B : cell_mem h (removelast (snake g)) = true
              <-> In h (removelast (snake g))) by apply cell_mem_In.
  assert (S : hits_static (static_obstacles g) h = true <->
              exists o, In o (static_obstacles g) /\
                        colliderect (cell_rect h) o = true)
    by apply existsb_exists.
  assert (M : hits_moving (moving_obstacles g) h = true <->
              exists m, In m (moving_obstacles g) /\
                        colliderect (cell_rect h) (rect m) = true)
    by apply existsb_exists.
  destruct (hits_wall h) eqn:Ew.
  - assert (Hn : ~ in_field h) by (intros F; apply W in F; discriminate).
    split; split; try discriminate; try tauto.
  - assert (Hf : in_field h) by (apply W; reflexivity).
    destruct (cell_mem h (removelast (snake g))) eqn:Eb.
    + assert (Hb : In h (removelast (snake g))) by (apply B; reflexivity).
      split; split; try discriminate; try tauto.
    + assert (Hb : ~ In h (removelast (snake g)))
        by (intros F; apply B in F; discriminate).
      destruct (hits_static (static_obstacles g) h) eqn:Es.
      * destruct (proj1 S eq_refl) as (o & Ho & Hc).
        split; split; try discriminate; try tauto.
        intros (_ & _ & Hs & _). specialize (Hs o Ho). congruence.
      * assert (Hs : forall o, In o (static_obstacles g) ->
                               colliderect (cell_rect h) o = false).
        { intros o Ho.
          apply (existsb_false_In (fun o => colliderect (cell_rect h) o)
                   _ o Es Ho). }
        destruct (hits_moving (moving_obstacles g) h) eqn:Em.
        -- destruct (proj1 M eq_refl) as (m & Hm & Hc).
           split; split; try discriminate; try tauto.
           intros (_ & _ & _ & Hmv). specialize (Hmv m Hm). congruence.
        -- assert (Hmv : forall m, In m (moving_obstacles g) ->
                                   colliderect (cell_rect h) (rect m) = false).
           { intros m Hm.
             apply (existsb_false_In
                      (fun m => colliderect (cell_rect h) (rect m))
                      _ m Em Hm). }
           split; split; try discriminate; try tauto.
Qed.

Lemma check_collisions_iff_witness :
  check_collisions game_start = Some false <->
  in_field (300, 200) /\ ~ In (300, 200) (removelast (snake game_start)) /\
  (forall o, In o (static_obstacles game_start) ->
             colliderect (cell_rect (300, 200)) o = false) /\
  (forall m, In m (moving_obstacles game_start) ->
             colliderect (cell_rect (300, 200)) (rect m) = false).
Proof.
  apply (proj2 (proj2 (check_collisions_iff game_start) (300, 200) eq_refl)).
Defined.

(** ** No IndexError *)

Lemma bind_not_Raised {A B} (m : M A) (k : A -> M B) ds :
  m ds <> Raised ->
  (forall a ds', m ds = Done a ds' -> k a ds' <> Raised) ->
  bind m k ds <> Raised.
Proof.
  unfold bind. intros Hm Hk. destruct (m ds) as [a ds'| |];
    [apply Hk; reflexivity | discriminate | congruence].
Qed.

Lemma spawn_food_not_Raised sn so mo :
  forall n ds, (length ds <= n)%nat -> spawn_food sn so mo ds <> Raised.
Proof.
  induction n as [|n IH]; intros ds Hlen.
  - destruct ds; [discriminate | simpl in Hlen; lia].
  - destruct ds as [|r1 [|r2 ds']]; try discriminate. simpl.
    destruct (spawn_ok sn so mo (grid_pos r1 r2)); [discriminate|].
    apply IH. simpl in Hlen. lia.
Qed.

Lemma static_obstacle_not_Raised taken :
  forall n ds, (length ds <= n)%nat -> static_obstacle taken ds <> Raised.
Proof.
  induction n as [|n IH]; intros ds Hlen.
  - destruct ds; [discriminate | simpl in Hlen; lia].
  - destruct ds as [|r1 [|r2 ds']]; try discriminate.
    cbn [static_obstacle].
    destruct (negb _ && negb _).
    + destruct ds' as [|r3 [|r4 ds'']]; discriminate.
    + apply IH. simpl in Hlen. lia.
Qed.

Lemma static_obstacles_loop_not_Raised n :
  forall obs taken ds, static_obstacles_loop n obs taken ds <> Raised.
Proof.
  induction n as [|n IH]; intros obs taken ds; [discriminate|].
  cbn [static_obstacles_loop]. apply bind_not_Raised.
  - apply (static_obstacle_not_Raised taken _ ds (le_n _)).
  - intros [o taken'] ds' _. apply IH.
Qed.

Lemma draw_not_Raised ds : draw ds <> Raised.
Proof. destruct ds; discriminate. Qed.

Lemma moving_obstacles_loop_not_Raised n :
  forall mobs ds, moving_obstacles_loop n mobs ds <> Raised.
Proof.
  induction n as [|n IH]; intros mobs ds; [discriminate|].
  cbn [moving_obstacles_loop].
  apply bind_not_Raised; [apply draw_not_Raised|]. intros r1 d1 _.
  apply bind_not_Raised; [apply draw_not_Raised|]. intros r2 d2 _.
  apply bind_not_Raised; [apply draw_not_Raised|]. intros r3 d3 _.
  apply IH.
Qed.

Lemma reset_all_not_Raised now ds : reset_all now ds <> Raised.
Proof.
  unfold reset_all. apply bind_not_Raised.
  - apply (spawn_food_not_Raised _ _ _ _ ds (le_n _)).
  - intros f d1 _. apply bind_not_Raised.
    + unfold make_obstacles. apply bind_not_Raised.
      * apply static_obstacles_loop_not_Raised.
      * intros obs d2 _. apply bind_not_Raised.
        -- apply moving_obstacles_loop_not_Raised.
        -- intros mobs d3 _. discriminate.
    + intros [obs mobs] d2 _. discriminate.
Qed.

Lemma Game_spawn_food_not_Raised g ds : Game_spawn_food g ds <> Raised.
Proof. apply (spawn_food_not_Raised _ _ _ _ ds (le_n _)). Qed.

Lemma maybe_spawn_powerup_not_Raised now g ds :
  maybe_spawn_powerup now g ds <> Raised.
Proof.
  unfold maybe_spawn_powerup.
  apply bind_not_Raised; [apply draw_not_Raised|]. intros r d1 _.
  destruct (chance POWERUP_CHANCE_PCT r); [|discriminate].
  apply bind_not_Raised; [apply draw_not_Raised|]. intros rk d2 _.
  apply bind_not_Raised; [apply Game_spawn_food_not_Raised|].
  intros p d3 _. discriminate.
Qed.

Lemma update_not_Raised now g ds : update now g ds <> Raised.
Proof.
  unfold update. apply bind_not_Raised.
  - destruct (_ && _); [|discriminate].
    apply bind_not_Raised; [apply draw_not_Raised|]. intros r d1 _.
    destruct (chance 50 r); [|discriminate].
    unfold spawn_special_food.
    apply bind_not_Raised; [apply Game_spawn_food_not_Raised|].
    intros p d2 _. discriminate.
  - intros g1 d1 _. discriminate.
Qed.

Lemma head_of_some l : l <> [] -> exists h, head_of l = Some h.
Proof. destruct l; [congruence|]. intros _. eexists. reflexivity. Qed.

Lemma sim_step_not_Raised now c g ds :
  snake g <> [] -> sim_step now c g ds <> Raised.
Proof.
  intros Hne. destruct (head_of_some _ Hne) as ([hx hy] & Hh).
  unfold sim_step. apply bind_not_Raised.
  - unfold advance. apply bind_not_Raised.
    { unfold move_snake, liftO. cbn [snake set_dir]. rewrite Hh. discriminate. }
    intros g1 d1 Hmv. lift_inv Hmv.
    destruct (move_snake_spec _ _ Hmv) as (h & _ & Hmo & _).
    unfold motion in Hmo. injection Hmo as M1 _ _.
    apply bind_not_Raised.
    { unfold eat_food. apply bind_not_Raised.
      - rewrite M1, head_of_snoc. discriminate.
      - intros h1 d2 _. destruct (_ && _); [|discriminate].
        apply bind_not_Raised; [apply Game_spawn_food_not_Raised|].
        intros f d3 _. apply bind_not_Raised;
          [apply maybe_spawn_powerup_not_Raised|].
        intros g3 d4 _. discriminate. }
    intros [a ga] d2 Heat.
    destruct (eat_food_spec _ _ _ _ _ _ Heat) as (Fa & _).
    unfold fixtures in Fa. injection Fa as _ _ A3 _ _ _ _ _.
    apply bind_not_Raised.
    { unfold eat_special_food, liftO.
      rewrite A3, M1, head_of_snoc.
      destruct (special_food ga); [destruct (_ && _)|]; discriminate. }
    intros [s gs] d3 Hsp. lift_inv Hsp.
    destruct (eat_special_food_spec _ _ _ Hsp) as (Fs & _).
    unfold fixtures in Fs. injection Fs as _ _ S3 _ _ _ _ _.
    apply bind_not_Raised.
    { unfold pickup_powerup, liftO.
      rewrite S3, A3, M1, head_of_snoc.
      destruct (pop_first_hit _ _) as [[p l]|]; discriminate. }
    intros [b gp] d4 _. discriminate.
  - intros [[a s] g1] d1 Hadv.
    destruct (advance_spec _ _ _ _ _ _ _ Hadv) as (h & Hh' & Hmo & _).
    unfold motion in Hmo. injection Hmo as M1 _ _.
    apply bind_not_Raised.
    { unfold trim_tail, liftO. rewrite M1.
      destruct (negb (a || s)); [|discriminate].
      destruct (snake g ++ [h]) eqn:E; [|discriminate].
      destruct (snake g); discriminate. }
    intros g2 d2 Htr. lift_inv Htr.
    destruct (trim_tail_spec _ _ _ _ _ M1 Hne Htr) as (Hs2 & _).
    apply bind_not_Raised; [|intros [hit out] d3 _; discriminate].
    unfold resolve. apply bind_not_Raised.
    { unfold check_collisions, liftO. rewrite Hs2, head_of_snoc. discriminate. }
    intros hit d3 _. destruct hit.
    + destruct (lives (reset_after_hit g2) <=? 0).
      * destruct c; try discriminate.
        apply bind_not_Raised; [apply reset_all_not_Raised|].
        intros fresh d4 _. discriminate.
      * apply bind_not_Raised; [apply update_not_Raised|].
        intros g3 d4 _. discriminate.
    + apply bind_not_Raised; [apply update_not_Raised|].
      intros g3 d4 _. discriminate.
Qed.

Lemma run_ops_not_Raised ops :
  forall g ds, snake g <> [] -> run_ops ops g ds <> Raised.
Proof.
  induction ops as [|op ops IH]; intros g ds Hne; [discriminate|].
  destruct op as [e | now c]; simpl.
  - apply IH.
    destruct (handle_input_cases e g) as [-> | [(d & _ & ->) | ->]];
      exact Hne.
  - apply bind_not_Raised; [apply sim_step_not_Raised, Hne|].
    intros r d1 Hs.
    destruct (sim_step_effect _ _ _ _ _ _ Hs)
      as (h & g2 & ds2 & _ & Hs2 & _ & _ & _ & _ & _ & _ & _ & _ & _ & _ & _
          & _ & _ & _ & _ & _ & _ & _ & _ & Hr).
    destruct (resolve_effect _ _ _ _ _ _ _ Hr) as (_ & Ho).
    destruct (outcome r) as [g1 | over fresh | over | over];
      try discriminate.
    + apply bind_not_Raised; [|intros; discriminate]. apply IH.
      destruct Ho as (Hu & _).
      destruct (update_spec _ _ _ _ _ Hu) as (Hmo & _).
      unfold motion in Hmo. injection Hmo as M1 _ _. rewrite M1.
      destruct (collided r); fields; [discriminate|].
      rewrite Hs2. intros E. apply app_eq_nil in E.
      destruct E as [_ E]. discriminate.
    + apply bind_not_Raised; [|intros; discriminate]. apply IH.
      destruct Ho as (_ & _ & _ & _ & Hi).
      destruct (reset_all_spec _ _ _ _ Hi) as (Hm & _).
      unfold motion in Hm. injection Hm as M1 _ _. rewrite M1. discriminate.
Qed.

(** X25. No session ever fails with the IndexError of an empty snake:
    whatever the events, the clock readings, the player's choices and the
    random draws are, every [snake[-1]] and [snake.pop(0)] of every step
    finds a segment.  (A session can only fail to finish by running out of
    draws inside a rejection loop.) *)
Theorem session_never_raises (now0 : Z) (ops : list Op) (ds : list Z) :
  session now0 ops ds <> Raised /\
  (forall g now c ds', snake g <> [] -> sim_step now c g ds' <> Raised) /\
  (forall g, move_snake g = None <-> snake g = []).
Proof.
  split; [|split].
  - unfold session. apply bind_not_Raised; [apply reset_all_not_Raised|].
    intros g d1 Hi. apply run_ops_not_Raised.
    destruct (reset_all_spec _ _ _ _ Hi) as (Hm & _).
    unfold motion in Hm. injection Hm as M1 _ _. rewrite M1. discriminate.
  - intros g now c ds' Hne. apply sim_step_not_Raised, Hne.
  - intros g. unfold move_snake, head_of. cbn [snake set_dir].
    destruct (snake g) as [|x l]; split; intros H;
      try reflexivity; try discriminate.
    destruct (last (x :: l) (0, 0)). discriminate.
Qed.

Lemma session_never_raises_witness :
  session 0 ops_into_bottom_wall start_draws <> Raised /\
  sim_step 0 PressQ game_start [] <> Raised.
Proof.
  split.
  - apply (proj1 (session_never_raises 0 ops_into_bottom_wall start_draws)).
  - apply (proj1 (proj2 (session_never_raises 0 [] [])) game_start 0 PressQ []).
    discriminate.
Defined.

(** * The fixed-step loop: a frame takes finitely many steps *)

(** ** Without input the snake runs into a wall *)







(** ** The rate, the step duration and the length of a frame *)




(** The frames the two bounds are about.  At 12 steps per second, 200 ms
    buy two steps, and a full second buys eleven: after eleven subtractions
    of the double 1/12 the timer holds a little less than 1/12. *)
Example frame_200ms_runs_two_steps :
  match frame 51 frame_200ms (mkMain game_start fzero Running) [] with
  | Done (Some (st, log)) _ =>
      length log = 2%nat /\
      step_timer st = S754_finite false 4803839602528532 (-57)
  | _ => False
  end.
Proof. vm_compute. split; reflexivity. Qed.

Example frame_1000ms_runs_eleven_steps :
  match frame 51 frame_1000ms (mkMain game_start fzero Running) [] with
  | Done (Some (st, log)) _ =>
      length log = 11%nat /\
      step_timer st = S754_finite false 6004799503160655 (-56) /\
      target_step 12 = S754_finite false 6004799503160661 (-56)
  | _ => False
  end.
Proof. vm_compute. repeat split; reflexivity. Qed.

(** On a timer of 2^60 s the subtraction is absorbed and the timer never
    falls under the step duration; the loop ends all the same, after the 27
    steps that use up the three lives. *)
Example frame_on_a_frozen_timer :
  fsub (float_of_int (2 ^ 60)) (target_step 12) = float_of_int (2 ^ 60) /\
  match frame 51 (mkFrame 0 [] 0 (fun _ => mkEnv 0 PressQ))
          (mkMain game_start (float_of_int (2 ^ 60)) Running) [] with
  | Done (Some (st, log)) _ =>
      length log = 27%nat /\ status st = NotRunning /\
      step_timer st = float_of_int (2 ^ 60)
  | _ => False
  end.
Proof. vm_compute. repeat split; reflexivity. Qed.
